(** * cli-kit: context tree, extension loader and dispatch

    A shallow embedding of the parts of cli-kit that decide how a command
    line is dispatched:

    - [src/lib/errors.js]       the error taxonomy;
    - [src/parser/context.js]   [Context]: the scoped property reads [get]
                                and [prop], [option], [registerCommand],
                                [extension] and the constructor's mixing
                                of an existing context;
    - [src/parser/extension.js] [Extension]: the constructor's resolution
                                of an extension path, and [exec];
    - [src/cli.js]              [CLI]: the loading of extensions at the end
                                of the constructor, and [exec].

    JavaScript objects are records, plain objects and [Map]s are [gmap]s or
    association lists, arrays are lists.  A [throw] is the left injection
    of a sum.  The file system, [which], [require], the child process and
    the consumer's functions are oracles held in an environment record. *)

From Stdlib Require Import ZArith String Ascii Bool List.
From stdpp Require Import base option list strings pretty gmap fin_maps.
Import ListNotations.

Local Open Scope string_scope.

(** ** JavaScript values *)

(** The thrown values.  [e_code] is the [code] property that
    [createError] defines ([ERR_] followed by the name), absent on errors
    that do not come from [errors.js]. *)
Inductive ErrorCode :=
| ALREADY_EXISTS | CONFLICT | DEFAULT_COMMAND_NOT_FOUND | EMPTY_STRING
| FILE_NOT_FOUND | INVALID_ALIAS | INVALID_ARGUMENT | INVALID_CLIKIT_OBJECT
| INVALID_DATA_TYPE | INVALID_DATE | INVALID_EXTENSION | INVALID_JSON
| INVALID_NODE_JS | INVALID_NUMBER | INVALID_OPTION | INVALID_OPTION_FORMAT
| INVALID_PACKAGE_JSON | INVALID_VALUE | MISSING_REQUIRED_ARGUMENT
| MISSING_REQUIRED_OPTION | NO_EXECUTABLE | NOT_AN_OPTION | NOT_YES_NO
| RANGE_ERROR | TEMPLATE_NOT_FOUND | TYPE_ERROR.

Record JsError := mkError {
  e_code : option ErrorCode;
  e_name : string;                       (* "Error", "TypeError", ... *)
  e_message : string;
  e_stack : string
}.

(** The closures the modelled code creates or receives.  The definitions
    below never call one: calling a function is an event of the caller,
    or a question to the environment. *)
Inductive Closure :=
| FnUser (id : nat)                      (* a function of the consumer *)
| FnExec                                 (* () => this.exec() *)
| FnInvalidExtension (pkgName : string) (err : option JsError)
                                         (* extension.js 106-122 *)
| FnExtensionNotFound (extensionPath : string)
                                         (* extension.js 193-196 *)
| FnVersionNotAnOption.                  (* extension.js 173-175 *)

Inductive JsValue :=
| JUndefined
| JNull
| JBool (b : bool)
| JNum (n : Z)
| JStr (s : string)
| JFun (f : Closure)
| JObj (id : nat).                       (* an object known by its identity *)

#[global] Instance ErrorCode_eq_dec : EqDecision ErrorCode.
Proof. solve_decision. Defined.

#[global] Instance JsError_eq_dec : EqDecision JsError.
Proof. solve_decision. Defined.

#[global] Instance Closure_eq_dec : EqDecision Closure.
Proof. solve_decision. Defined.

#[global] Instance JsValue_eq_dec : EqDecision JsValue.
Proof. solve_decision. Defined.

(** [ToBoolean]: what [if (v)], [!v], [a || b] and [a && b] test. *)
Definition truthy (v : JsValue) : bool :=
  match v with
  | JUndefined | JNull => false
  | JBool b => b
  | JNum n => negb (n =? 0)%Z
  | JStr s => negb (String.eqb s EmptyString)
  | JFun _ | JObj _ => true
  end.

(** [v !== undefined] *)
Definition is_defined (v : JsValue) : bool :=
  match v with JUndefined => false | _ => true end.

(** [typeof v === 'function'] *)
Definition is_function (v : JsValue) : bool :=
  match v with JFun _ => true | _ => false end.

(** [a || b] *)
Definition js_or (a b : JsValue) : JsValue := if truthy a then a else b.

(** [String(v)] and [`${v}`].  A function prints as its source text and an
    object through its [toString]; neither is known here, so both print
    as a plain object does. *)
Definition js_String (v : JsValue) : string :=
  match v with
  | JUndefined => "undefined"
  | JNull => "null"
  | JBool true => "true"
  | JBool false => "false"
  | JNum n => pretty n
  | JStr s => s
  | JFun _ | JObj _ => "[object Object]"
  end.

(** ** Strings *)

(** White space of [String.prototype.trim], within ASCII. *)
Definition is_space (a : ascii) : bool :=
  let n := nat_of_ascii a in
  ((9 <=? n)%nat && (n <=? 13)%nat) || (n =? 32)%nat.

Fixpoint trim_start (s : string) : string :=
  match s with
  | String a rest => if is_space a then trim_start rest else s
  | EmptyString => EmptyString
  end.

Definition trim (s : string) : string :=
  String.rev (trim_start (String.rev (trim_start s))).

(** [s.includes(needle)] *)
Fixpoint includes (needle s : string) : bool :=
  String.prefix needle s ||
  match s with
  | String _ rest => includes needle rest
  | EmptyString => false
  end.

(** [s.endsWith(needle)] *)
Fixpoint ends_with (needle s : string) : bool :=
  String.eqb needle s ||
  match s with
  | String _ rest => ends_with needle rest
  | EmptyString => false
  end.




(** ** errors.js *)

(** The constructor [createError] is called with: [TypeError], [RangeError]
    or [Error] (errors.js 4-29). *)
Definition error_type (c : ErrorCode) : string :=
  match c with
  | INVALID_ALIAS | INVALID_ARGUMENT | INVALID_CLIKIT_OBJECT
  | INVALID_OPTION_FORMAT | TYPE_ERROR => "TypeError"
  | INVALID_DATE | NOT_YES_NO | RANGE_ERROR => "RangeError"
  | _ => "Error"
  end.

(** [errors[code](msg, meta)]: a new error of the code's type with the
    message, and [code] set.  The stack of a new error starts with its
    [toString()]; the frames that follow are the engine's and are left
    out.  [meta] is not read by the modelled code. *)
Definition E (c : ErrorCode) (msg : string) : JsError :=
  {| e_code := Some c;
     e_name := error_type c;
     e_message := msg;
     e_stack := error_type c ++ ": " ++ msg |}.

(** What the runtime throws on [undefined.x] and the like. *)
Definition TypeError (msg : string) : JsError :=
  {| e_code := None; e_name := "TypeError"; e_message := msg;
     e_stack := "TypeError: " ++ msg |}.


Abbreviation Result A := (JsError + A)%type.
Abbreviation Ok := inr.
Abbreviation Throw := inl.

Definition bind {A B} (r : Result A) (k : A -> Result B) : Result B :=
  match r with
  | Throw e => Throw e
  | Ok a => k a
  end.

Notation "'let!' x ':=' r 'in' k" := (bind r (fun x => k))
  (at level 10, x pattern, r at level 100, k at level 200).

(** ** context.js: objects *)

Definition DQ : string := String "034"%char EmptyString.

(** The class an object was constructed by; [instanceof] follows the
    [extends] chain [Extension < Command < Context] and [CLI < Context]. *)
Inductive Kind := KContext | KCLI | KCommand | KExtension.

#[global] Instance Kind_eq_dec : EqDecision Kind.
Proof. solve_decision. Defined.

Definition instanceof_Command (k : Kind) : bool :=
  match k with KCommand | KExtension => true | _ => false end.

Definition instanceof_Extension (k : Kind) : bool :=
  match k with KExtension => true | _ => false end.

(** Modelled from the spec: [option.js] is not among the sources.  An
    [Option] carries its canonical long and short names (or null), the
    name it is known by, its group, its aliases split into long and short,
    each mapping an alias to whether it is visible, the hidden flag and an
    optional callback. *)
Record Option := mkOption {
  opt_name : string;
  opt_long : option string;
  opt_short : option string;
  opt_group : string;
  opt_aliases_long : list (string * bool);
  opt_aliases_short : list (string * bool);
  opt_hidden : bool;
  opt_callback : option Closure
}.

#[global] Instance Option_eq_dec : EqDecision Option.
Proof. solve_decision. Defined.

(** [lookup.long] and [lookup.short]; [lookup.commands] is kept with the
    command list, see [Registry]. *)
Record Lookup := mkLookup {
  long : gmap string Option;
  short : gmap string Option
}.

(** An [OptionList]: a [Map] from group to the options of the group, in
    insertion order. *)
Abbreviation OptionList := (list (string * list Option)).

(** A context object.  [name], [aliases] (an object from alias to
    visibility), [execArgs], [options], [lookup] and [parent] are the
    properties of these names; [props] holds the other own data
    properties ([action], [banner], [executable], [isCLIKitExtension],
    [help], [defaultCommand], ...).  The parent chain is finite: a
    context is constructed after its parent. *)
#[warnings="-register-all"] Inductive Context := mkContext {
  kind : Kind;
  name : string;
  props : gmap string JsValue;
  aliases : list (string * bool);
  execArgs : list JsValue;
  options : OptionList;
  lookup : Lookup;
  parent : option Context
}.

(** [this[name]]: an absent property reads as [undefined]. *)
Definition read (c : Context) (prop : string) : JsValue :=
  default JUndefined (props c !! prop).

(** [this[prop] = v] *)
Definition write (c : Context) (prop : string) (v : JsValue) : Context :=
  mkContext (kind c) (name c) (<[prop := v]> (props c)) (aliases c)
            (execArgs c) (options c) (lookup c) (parent c).

(** ** context.js: scoped property reads *)

(** [Context.get] (context.js 519-525):
<<
    let value = this[name];
    for (let p = this.parent; p; p = p.parent) {
        value = p.get(name, value);
    }
    return value !== undefined ? value : defaultValue;
>>
    The loop over the ancestors is the inner [fix], entered at the first
    ancestor; each turn calls [get] on the ancestor [p], which walks the
    rest of the chain again, and then moves to [p.parent]. *)
Fixpoint get (c : Context) (prop : string) (defaultValue : JsValue) {struct c} : JsValue :=
  let value :=
    match parent c with
    | None => read c prop
    | Some p0 =>
        (fix loop (p : Context) (value : JsValue) {struct p} : JsValue :=
           let value := get p prop value in
           match parent p with
           | None => value
           | Some p' => loop p' value
           end) p0 (read c prop)
    end in
  if is_defined value then value else defaultValue.

(** [Context.prop] (context.js 535-541):
<<
    let value = this[name];
    for (let p = this.parent; value === undefined && p; p = p.parent) {
        value = p.prop(name, value);
    }
    return value !== undefined ? value : defaultValue;
>> *)
Fixpoint prop (c : Context) (name : string) (defaultValue : JsValue) {struct c} : JsValue :=
  let value :=
    match parent c with
    | None => read c name
    | Some p0 =>
        (fix loop (p : Context) (value : JsValue) {struct p} : JsValue :=
           if is_defined value then value
           else
             let value := prop p name value in
             match parent p with
             | None => value
             | Some p' => loop p' value
             end) p0 (read c name)
    end in
  if is_defined value then value else defaultValue.

(** The loops of [get] and [prop] on their own, for the proofs. *)
Definition get_loop (name : string) : Context -> JsValue -> JsValue :=
  fix loop (p : Context) (value : JsValue) {struct p} : JsValue :=
    let value := get p name value in
    match parent p with
    | None => value
    | Some p' => loop p' value
    end.

Definition prop_loop (name : string) : Context -> JsValue -> JsValue :=
  fix loop (p : Context) (value : JsValue) {struct p} : JsValue :=
    if is_defined value then value
    else
      let value := prop p name value in
      match parent p with
      | None => value
      | Some p' => loop p' value
      end.

(** The chain from a context to the root, the context first. *)
Fixpoint chain (c : Context) : list Context :=
  c :: match parent c with
       | None => []
       | Some p => chain p
       end.

(** What each context of the chain declares for [name], local first,
    root last. *)
Definition declared (c : Context) (name : string) : list JsValue :=
  map (fun x => read x name) (chain c).

(** The spec's words for the two reads, over the declared values in
    local-to-root order: the topmost declaration is the last one that is
    not [undefined], the bottom-most the first one. *)
Fixpoint topmost_defined (vs : list JsValue) : option JsValue :=
  match vs with
  | [] => None
  | v :: rest =>
      match topmost_defined rest with
      | Some w => Some w
      | None => if is_defined v then Some v else None
      end
  end.

Fixpoint bottommost_defined (vs : list JsValue) : option JsValue :=
  match vs with
  | [] => None
  | v :: rest => if is_defined v then Some v else bottommost_defined rest
  end.

(** ** context.js: [option] *)

(** Modelled from the spec: [option-list.js] is not among the sources.
    [OptionList.add(group, opt)] adds the option to [options[group]]; a
    duplicate within the same context fails with [ALREADY_EXISTS].  Two
    options are duplicates when they share a canonical long or a canonical
    short name. *)
Definition same_canonical (a b : Option) : bool :=
  match opt_long a, opt_long b with
  | Some x, Some y => String.eqb x y
  | _, _ => false
  end ||
  match opt_short a, opt_short b with
  | Some x, Some y => String.eqb x y
  | _, _ => false
  end.

Fixpoint add_to_group (ol : OptionList) (group : string) (opt : Option) : OptionList :=
  match ol with
  | [] => [(group, [opt])]
  | (g, opts) :: rest =>
      if String.eqb g group then (g, (opts ++ [opt])%list) :: rest
      else (g, opts) :: add_to_group rest group opt
  end.

Definition OptionList_add (ol : OptionList) (group : string) (opt : Option)
  : Result OptionList :=
  if existsb (fun '(_, opts) => existsb (same_canonical opt) opts) ol
  then Throw (E ALREADY_EXISTS "Option already exists")
  else Ok (add_to_group ol group opt).

(** The loops of [option] over [Object.entries(opt.aliases.long)] and
    [Object.entries(opt.aliases.short)] (context.js 595-605): a visible
    alias is entered into the table. *)
Definition register_aliases (opt : Option) (als : list (string * bool))
    (table : gmap string Option) : gmap string Option :=
  foldl (fun t '(alias, visible) => if visible : bool then <[alias := opt]> t else t)
        table als.

(** [Context.option(optOrFormat, group, params)] (context.js 563-608) when
    [optOrFormat] is an [Option] instance and [params] is absent, as the
    constructor's mixing calls it.  A group that is a non-empty string is
    then taken for a description and reset to null (564-574), so the group
    is [opt.group || ''] in every case (583).  A canonical name that is
    empty is falsy and is not entered into the lookup. *)
Definition Context_option (this : Context) (opt : Option) : Result Context :=
  let group := opt_group opt in
  let! options' := OptionList_add (options this) group opt in
  let long1 :=
    match opt_long opt with
    | Some l => if String.eqb l EmptyString then long (lookup this)
                else <[l := opt]> (long (lookup this))
    | None => long (lookup this)
    end in
  let short1 :=
    match opt_short opt with
    | Some s => if String.eqb s EmptyString then short (lookup this)
                else <[s := opt]> (short (lookup this))
    | None => short (lookup this)
    end in
  let long2 := register_aliases opt (opt_aliases_long opt) long1 in
  let short2 := register_aliases opt (opt_aliases_short opt) short1 in
  Ok (mkContext (kind this) (name this) (props this) (aliases this)
                (execArgs this) options' (mkLookup long2 short2) (parent this)).

(** ** context.js: the constructor *)

(** [propIgnoreRegExp = /^_events|_links|args|commands|lookup|options$/].
    Alternation binds weakest in a regular expression: [^] belongs to the
    first alternative and [$] to the last, the four in between are not
    anchored.  [test] therefore holds of a name that starts with
    [_events], contains [_links], [args], [commands] or [lookup], or ends
    with [options]. *)
Definition propIgnoreRegExp_test (prop : string) : bool :=
  String.prefix "_events" prop
  || includes "_links" prop
  || includes "args" prop
  || includes "commands" prop
  || includes "lookup" prop
  || ends_with "options" prop.

(** The parameters of a constructor: a plain object, or an existing
    cli-kit object that is mixed in.  [p_clikit] is [params.clikit] when
    that is a [Set]; [p_props] are the own enumerable data properties
    other than [aliases], [options] and [parent], which have fields of
    their own; [p_options] is the option list of an existing context and
    is empty for a plain object.  [args], [commands] and [extensions] are
    left out: the callers modelled here pass none. *)
Record Params := mkParams {
  p_clikit : option (gset string);
  p_props : gmap string JsValue;
  p_aliases : list JsValue;
  p_options : OptionList;
  p_parent : option Context
}.

Definition param (params : Params) (prop : string) : JsValue :=
  default JUndefined (p_props params !! prop).

Definition set_param (params : Params) (prop : string) (v : JsValue) : Params :=
  mkParams (p_clikit params) (<[prop := v]> (p_props params)) (p_aliases params)
           (p_options params) (p_parent params).

(** [params.clikit instanceof Set && params.clikit.has(tag)] *)
Definition clikit_has (params : Params) (tag : string) : bool :=
  match p_clikit params with
  | Some s => bool_decide (tag ∈ s)
  | None => false
  end.

(** The constructor's loop over [Object.keys(params)] (context.js 162-168):
<<
    if (!propIgnoreRegExp.test(prop) ||
        ((prop === 'stdout' || prop === 'stderr') && ignoreOut)) {
        this[prop] = params[prop];
    }
>> *)
Definition copied (ignoreOut : bool) (prop : string) : bool :=
  negb (propIgnoreRegExp_test prop)
  || ((String.eqb prop "stdout" || String.eqb prop "stderr") && ignoreOut).

Definition copy_props (params : Params) : gmap string JsValue :=
  let ignoreOut := clikit_has params "Context" in
  filter (fun kv => copied ignoreOut kv.1 = true) (p_props params).

(** The scan of the ancestors for an option of the same name
    (context.js 247-259). *)
Definition declares (c : Context) (optName : string) : bool :=
  existsb (fun '(_, opts) =>
             existsb (fun opt => String.eqb (opt_name opt) optName) opts)
          (options c).

Fixpoint found_in (p : Context) (optName : string) : bool :=
  declares p optName ||
  match parent p with
  | Some p' => found_in p' optName
  | None => false
  end.

(** [add] of context.js 244-260. *)
Definition mix_add (isCLI : bool) (this : Context) (opt : Option) : bool :=
  if isCLI && negb (String.eqb (opt_name opt) "version") then
    negb match parent this with
         | Some p => found_in p (opt_name opt)
         | None => false
         end
  else true.

(** The options of an existing CLI or Command are copied into this
    context (context.js 236-266). *)
Definition mix_options (isCLI : bool) (entries : OptionList) (this : Context)
  : Result Context :=
  foldl (fun acc opt =>
           let! this := acc in
           if mix_add isCLI this opt then Context_option this opt else Ok this)
        (Ok this)
        (concat (map snd entries)).

(** [new Context(params)] (context.js 143-311), for parameters without
    [args], [commands] and [extensions], and without options unless an
    existing CLI or Command is mixed in. *)
Definition Context_new (params : Params) : Result Context :=
  if match p_clikit params with
     | Some s => negb (bool_decide ("Context" ∈ s))
     | None => false
     end
  then Throw (E INVALID_ARGUMENT
                "Expected parameters to be an object, CLI, Command, or Context")
  else
    let camelCase :=
      JBool (negb (bool_decide (param params "camelCase" = JBool false))) in
    let this :=
      mkContext KContext (js_String (param params "name"))
                (<["camelCase" := camelCase]> (copy_props params))
                [] [] [] (mkLookup ∅ ∅) (p_parent params) in
    if clikit_has params "CLI" || clikit_has params "Command"
    then mix_options (clikit_has params "CLI") (p_options params) this
    else Ok this.

(** ** command.js *)

(** Modelled from the spec: [command.js] is not among the sources.  The
    aliases a [Command] is given: an alias that is empty or ill-formed
    fails with [INVALID_ALIAS], so every element of [params.aliases] has
    to be a non-empty string. *)
Fixpoint alias_names (als : list JsValue) : Result (list string) :=
  match als with
  | [] => Ok []
  | JStr s :: rest =>
      if String.eqb s EmptyString
      then Throw (E INVALID_ALIAS "Expected alias to be a non-empty string")
      else let! names := alias_names rest in Ok (s :: names)
  | _ :: rest => Throw (E INVALID_ALIAS "Expected alias to be a non-empty string")
  end.

(** Modelled from the spec: [command.js] is not among the sources.  A
    [Command] is a [Context] with a name, aliases (an object from alias to
    visibility), an action and a banner; a declarative call that receives
    the wrong shape fails with [INVALID_ARGUMENT], an alias that is empty or
    ill-formed with [INVALID_ALIAS].  [new Command(name, params)] is the
    context constructed from the parameters, under the given name, with
    the aliases of [params.aliases], all visible; [action] and [banner]
    come with the other properties of the parameters. *)
Definition Command_new (name : string) (params : Params) : Result Context :=
  if String.eqb name EmptyString
  then Throw (E INVALID_ARGUMENT "Expected name to be a non-empty string")
  else
    let! names := alias_names (p_aliases params) in
    let! this := Context_new (set_param params "name" (JStr name)) in
    Ok (mkContext KCommand name (props this)
                  (map (fun a => (a, true)) names)
                  (execArgs this) (options this) (lookup this) (parent this)).

(** ** context.js: [registerCommand] *)

(** The commands of a context: [this.commands], a [CommandList], and
    [this.lookup.commands], a plain object.

    Modelled from the spec: [command-list.js] is not among the sources; a
    [CommandList] is the keyed list of the child commands of a context,
    [add(cmd)] enters the command under its name. *)
Record Registry := mkRegistry {
  commands : gmap string Context;
  lookup_commands : gmap string Context
}.

(** [this.commands.has(key)]: the keys are names, so a key that is not a
    string is not there. *)
Definition commands_has (cs : gmap string Context) (key : JsValue) : bool :=
  match key with
  | JStr s => bool_decide (is_Some (cs !! s))
  | _ => false
  end.

(** [this.commands.get(key)] *)
Definition commands_get (cs : gmap string Context) (key : JsValue) : option Context :=
  match key with
  | JStr s => cs !! s
  | _ => None
  end.

(** [Context.registerCommand] (context.js 617-634):
<<
    if (this.commands.has(cmd.name)) {
        throw E.ALREADY_EXISTS(`Command "${cmd.name}" already exists`, ...);
    }
    this.commands.add(cmd);
    this.lookup.commands[cmd.name] = cmd;
    if (cmd.aliases) {
        for (const alias of Object.keys(cmd.aliases)) {
            if (!this.commands.has(alias)) {
                this.lookup.commands[alias] = cmd;
            }
        }
    }
>> *)
Definition registerCommand (this : Registry) (cmd : Context) : Result Registry :=
  if commands_has (commands this) (JStr (name cmd))
  then Throw (E ALREADY_EXISTS ("Command " ++ DQ ++ name cmd ++ DQ ++ " already exists"))
  else
    let commands' := <[name cmd := cmd]> (commands this) in
    let lookup0 := <[name cmd := cmd]> (lookup_commands this) in
    let lookup' :=
      foldl (fun lk alias =>
               if commands_has commands' (JStr alias) then lk
               else <[alias := cmd]> lk)
            lookup0 (map fst (aliases cmd)) in
    Ok (mkRegistry commands' lookup').

(** ** extension.js *)

(** What the constructor reads of [pkg.json]. *)
Record PackageJson := mkPackageJson {
  pj_name : JsValue;
  pj_aliases : option (list JsValue);           (* when [Array.isArray] *)
  pj_bin : option (list (string * JsValue));    (* the entries, when truthy *)
  pj_description : JsValue
}.

(** What [findPackage] returns. *)
Record Package := mkPackage {
  pkg_main : option string;
  pkg_json : PackageJson;
  pkg_clikit : bool
}.

(** What a module exports: a value that is not looked into, or an object
    with its properties, among them [clikit]. *)
Inductive Exported :=
| XValue (v : JsValue)
| XObject (o : Params).

(** What [require] returns: the export, or a module object whose
    [__esModule] is truthy and whose [default] is the export. *)
Inductive Module :=
| Plain (x : Exported)
| EsModule (default : Exported).

Record Terminal := mkTerminal {
  stdin : JsValue;
  stdout : JsValue;
  stderr : JsValue
}.

(** The world outside the library. *)
Record Env := mkEnv {
  (* [which.sync(path)]; [None] when it throws *)
  which_sync : string -> option string;
  (* [fs.existsSync(path)] *)
  existsSync : string -> bool;
  (* [findPackage(path)] of lib/util *)
  findPackage : string -> Result Package;
  (* [require(main)] *)
  require : string -> Result Module;
  (* [path.basename(path)] *)
  basename : string -> string;
  (* [process.execPath] *)
  execPath : string;
  (* [process.stdin], [process.stdout], [process.stderr] *)
  process_stdin : JsValue;
  process_stdout : JsValue;
  process_stderr : JsValue;
  (* the objects that have [stdin], [stdout] and [stderr] *)
  terminals : gmap nat Terminal
}.

(** [ctx && typeof ctx === 'object'] *)
Definition is_object (x : Exported) : bool :=
  match x with
  | XObject _ => true
  | XValue (JObj _) => true
  | XValue _ => false
  end.

(** [ctx.clikit instanceof Set && (ctx.clikit.has('CLI') ||
    ctx.clikit.has('Command'))] *)
Definition is_compatible (x : Exported) : bool :=
  match x with
  | XObject o => clikit_has o "CLI" || clikit_has o "Command"
  | XValue _ => false
  end.

(** [arr.includes(v)] *)
Definition js_includes (arr : list JsValue) (v : JsValue) : bool :=
  bool_decide (v ∈ arr).

(** extension.js 135-152: the aliases of the manifest, the name the
    extension was given when it differs from the resolved one, and every
    [bin] that shares the target of the bin named after the package. *)
Definition extension_aliases (json : PackageJson) (paramsName : JsValue)
    (name : string) : list JsValue :=
  let aliases0 := default [] (pj_aliases json) in
  let aliases1 :=
    if truthy paramsName
       && negb (bool_decide (paramsName = JStr name))
       && negb (js_includes aliases0 paramsName)
    then (aliases0 ++ [paramsName])%list
    else aliases0 in
  match pj_bin json with
  | Some bin =>
      let primary :=
        default JUndefined
          (snd <$> List.find (fun '(k, _) => String.eqb k (js_String (pj_name json)))
                             bin) in
      foldl (fun als '(binName, target) =>
               if bool_decide (target = primary) && negb (js_includes als (JStr binName))
               then (als ++ [JStr binName])%list
               else als)
            aliases1 bin
  | None => aliases1
  end.

(** What the first part of the constructor (extension.js 50-158) leaves in
    its local variables. *)
Record Resolution := mkResolved {
  r_executable : option string;
  r_pkg : option Package;
  r_isCLIKitExtension : bool;
  r_name : string;
  r_params : Params
}.

(** extension.js 80-133: the package declares cli-kit.  The result is
    [isCLIKitExtension] and the parameters to go on with. *)
Definition load_clikit (env : Env) (params : Params) (parent : option Context)
    (extensionPath : string) (main : string) (json : PackageJson)
  : Result (bool * Params) :=
  let loaded := require env main in
  let ctx :=
    match loaded with
    | Throw _ => XValue JUndefined
    | Ok (Plain x) => x
    | Ok (EsModule d) => d
    end in
  let err := match loaded with Throw e => Some e | Ok _ => None end in
  if is_object ctx then
    match ctx with
    | XObject o =>
        if is_compatible ctx
        then Ok (true, mkParams (p_clikit o) (p_props o) (p_aliases o)
                                (p_options o) parent)
        else Ok (false, params)
    | XValue _ => Ok (false, params)
    end
  else if truthy (param params "ignoreInvalidExtensions")
          || match p_parent params with
             | Some p => truthy (get p "ignoreInvalidExtensions" (JBool false))
             | None => false
             end
  then Ok (true, set_param params "action"
                   (JFun (FnInvalidExtension (js_String (pj_name json)) err)))
  else
    match err with
    | Some e =>
        let error :=
          E INVALID_EXTENSION
            ("Bad extension " ++ DQ ++ js_String (pj_name json) ++ DQ ++ ": "
             ++ e_message e) in
        Throw (mkError (e_code error) (e_name error) (e_message error) (e_stack e))
    | None =>
        Throw (E INVALID_EXTENSION
                 ("Extension does not export an object: " ++ extensionPath))
    end.

(** extension.js 135-156: the aliases and the description of the manifest
    are put into the parameters. *)
Definition manifest_params (json : PackageJson) (name : string) (params : Params)
  : Params :=
  let als := extension_aliases json (param params "name") name in
  let params :=
    mkParams (p_clikit params) (p_props params) als
             (p_options params) (p_parent params) in
  if truthy (pj_description json)
  then set_param params "desc" (pj_description json)
  else params.

(** extension.js 75-78: without an explicit name, the name of the
    package. *)
Definition package_name (json : PackageJson) (name : string) : string :=
  if String.eqb name EmptyString
  then trim (js_String (js_or (pj_name json) (JStr EmptyString)))
  else name.

(** extension.js 50-158. *)
Definition resolve (env : Env) (params : Params) : Result Resolution :=
  let parent := p_parent params in
  match param params "extensionPath" with
  | JStr extensionPath =>
      if String.eqb extensionPath EmptyString
      then Throw (E INVALID_ARGUMENT "Expected extension path to be a non-empty string")
      else
        let name := trim (js_String (js_or (param params "name") (JStr EmptyString))) in
        match which_sync env extensionPath with
        | Some executable =>
            Ok (mkResolved (Some executable) None false name
                           (set_param params "action" (JFun FnExec)))
        | None =>
            if existsSync env extensionPath then
              let! pkg := findPackage env extensionPath in
              match pkg_main pkg with
              | Some main =>
                  if String.eqb main EmptyString
                  then Throw (E INVALID_EXTENSION
                                ("Unable to find extension's main file: " ++ extensionPath))
                  else
                    let json := pkg_json pkg in
                    let name := package_name json name in
                    let! loaded :=
                      (if pkg_clikit pkg
                       then load_clikit env params parent extensionPath main json
                       else Ok (false, params)) in
                    let isCLIKitExtension := fst loaded in
                    let params := snd loaded in
                    Ok (mkResolved None (Some pkg) isCLIKitExtension name
                                   (manifest_params json name params))
              | None =>
                  Throw (E INVALID_EXTENSION
                           ("Unable to find extension's main file: " ++ extensionPath))
              end
            else Ok (mkResolved None None false name params)
        end
  | _ => Throw (E INVALID_ARGUMENT "Expected extension path to be a non-empty string")
  end.

(** Modelled from the spec: [option.js] is not among the sources.  The
    option that [new Option('-v, --version', { callback, hidden: true })]
    makes: canonical long [version], canonical short [v], no value, no
    alias, hidden, with the callback that throws [NOT_AN_OPTION]. *)
Definition version_override : Option :=
  mkOption "version" (Some "version") (Some "v") EmptyString [] [] true
           (Some FnVersionNotAnOption).

(** [new Extension(params)], the second part (extension.js 160-203).  The
    field initialisers [execArgs = []] and [isCLIKitExtension = false] run
    when [super] returns.  [this.pkg] and [this.time] are not read by the
    modelled code and are left out, and so are the calls of [log]. *)
Definition Extension_finish (env : Env) (extensionPath : string) (r : Resolution)
    (super : Context) : Result Context :=
  let params := r_params r in
  let this :=
    mkContext KExtension (name super) (props super) (aliases super)
              [] (options super) (lookup super) (parent super) in
  let this := write this "isCLIKitExtension" (JBool false) in
  let this := write this "banner" (param params "banner") in
  let this := write this "executable"
                    match r_executable r with
                    | Some exe => JStr exe
                    | None => JNull
                    end in
  let this := write this "isCLIKitExtension" (JBool (r_isCLIKitExtension r)) in
  let! this :=
    (if negb (r_isCLIKitExtension r)
     then Context_option this version_override
     else Ok this) in
  if r_isCLIKitExtension r then Ok this
  else
    match r_pkg r with
    | Some _ =>
        let this := write this "executable" (JStr (execPath env)) in
        let this :=
          mkContext (kind this) (name this) (props this) (aliases this)
                    (read this "extensionPath" :: execArgs this)
                    (options this) (lookup this) (parent this) in
        Ok (write this "action" (JFun FnExec))
    | None =>
        if truthy (read this "executable") then Ok this
        else if truthy (get this "ignoreMissingExtensions" (JBool false))
        then Ok (write this "action" (JFun (FnExtensionNotFound extensionPath)))
        else Throw (E INVALID_EXTENSION ("Extension not found: " ++ extensionPath))
    end.

(** The name [super] is called with: [name || path.basename(extensionPath)]. *)
Definition extension_name (env : Env) (extensionPath : string) (r : Resolution)
  : string :=
  if String.eqb (r_name r) EmptyString
  then basename env extensionPath
  else r_name r.

(** [new Extension(params)] (extension.js 45-203).  [params] is an object
    by its type, so the check of lines 46-48 passes. *)
Definition Extension_new (env : Env) (params : Params) : Result Context :=
  let! r := resolve env params in
  let extensionPath := js_String (param params "extensionPath") in
  let! super := Command_new (extension_name env extensionPath r) (r_params r) in
  Extension_finish env extensionPath r super.


(** *** [Extension.exec] *)

Inductive Stdio := inherit | pipe.

#[global] Instance Stdio_eq_dec : EqDecision Stdio.
Proof. solve_decision. Defined.

(** [spawn(command, args, { stdio })] *)
Record SpawnCall := mkSpawn {
  sp_command : JsValue;
  sp_args : list JsValue;
  sp_stdio : list Stdio
}.

(** How the promise is settled: [resolve({ code })] or [reject(e)]. *)
Inductive Settled :=
| Resolved (code : JsValue)
| Rejected (e : JsError).

(** What [exec] has done when the executor returns: the promise is
    settled already, or a child runs and the promise waits for its
    [close].  [spawned] are the calls of [spawn], [piped] the streams of
    the terminal that the child's output is piped to, [on_close] what the
    listener for [close] does with the code it is called with. *)
Inductive ExecState :=
| Settles (s : Settled) (spawned : list SpawnCall)
| Pending (spawned : SpawnCall) (piped : list JsValue) (on_close : JsValue -> Settled).

(** [const { stderr, stdin, stdout } = this.get('terminal')]: taking
    [undefined] or [null] apart throws; a value without the three
    properties gives [undefined] for each. *)
Definition terminal_of (env : Env) (v : JsValue) : Result Terminal :=
  match v with
  | JUndefined | JNull =>
      Throw (TypeError "Cannot destructure 'this.get(...)' as it is undefined.")
  | JObj id => Ok (default (mkTerminal JUndefined JUndefined JUndefined)
                           (terminals env !! id))
  | _ => Ok (mkTerminal JUndefined JUndefined JUndefined)
  end.

(** [!this.isCLIKitExtension || stream === processStream ? 'inherit' : 'pipe'] *)
Definition stdio_for (this : Context) (stream processStream : JsValue) : Stdio :=
  if negb (truthy (read this "isCLIKitExtension"))
     || bool_decide (stream = processStream)
  then inherit else pipe.

(** [typeof v === 'object'] of a stream *)
Definition is_stream (v : JsValue) : Prop := exists id, v = JObj id.

(** [child.stdout.pipe(dest)]: the destination has to be a stream. *)
Definition pipe_to (dest : JsValue) : Result JsValue :=
  match dest with
  | JObj _ => Ok dest
  | _ => Throw (TypeError "Cannot read properties of undefined (reading 'on')")
  end.

(** [Extension.exec] (extension.js 211-236).  An exception of the
    executor rejects the promise.  The listener for [close] has a default
    parameter, [(code = 0) => resolve({ code })]. *)
Definition Extension_exec (env : Env) (this : Context) : ExecState :=
  if negb (truthy (read this "executable"))
  then Settles (Rejected (E NO_EXECUTABLE "No executable to run")) []
  else
    match terminal_of env (get this "terminal" JUndefined) with
    | Throw e => Settles (Rejected e) []
    | Ok t =>
        let stdio :=
          [ stdio_for this (stdin t) (process_stdin env);
            stdio_for this (stdout t) (process_stdout env);
            stdio_for this (stderr t) (process_stderr env) ] in
        let child := mkSpawn (read this "executable") (execArgs this) stdio in
        let piped :=
          let! out := (if bool_decide (stdio !! 1 = Some pipe)
                       then (let! d := pipe_to (stdout t) in Ok [d])
                       else Ok []) in
          let! err := (if bool_decide (stdio !! 2 = Some pipe)
                       then (let! d := pipe_to (stderr t) in Ok [d])
                       else Ok []) in
          Ok (out ++ err)%list in
        match piped with
        | Throw e => Settles (Rejected e) [child]
        | Ok piped =>
            Pending child piped
                    (fun code => Resolved (if is_defined code then code else JNum 0))
        end
    end.

(** *** The actions the constructor installs *)



(** ** context.js: [extension] *)

(** What [Context.extension(ext, name)] is given: an [Extension], an
    object with [name] and [path], or anything else, taken for a path. *)
Inductive ExtensionRef :=
| ExtInstance (e : Context)
| ExtDescriptor (extName path : JsValue)
| ExtPath (path : JsValue).

(** [Context.extension(ext, name)] (context.js 380-402), on the context
    [this] with the commands [reg]. *)
Definition Context_extension (env : Env) (this : Context) (reg : Registry)
    (ext : ExtensionRef) (extName : JsValue) : Result Registry :=
  let extension_params path nm :=
    mkParams None {[ "extensionPath" := path; "name" := nm ]} [] [] (Some this) in
  let! ext :=
    match ext with
    | ExtInstance e =>
        Ok (mkContext (kind e) (name e) (props e) (aliases e) (execArgs e)
                      (options e) (lookup e) (Some this))
    | ExtDescriptor nm path => Extension_new env (extension_params path nm)
    | ExtPath path => Extension_new env (extension_params path extName)
    end in
  registerCommand reg ext.

(** ** cli.js: the constructor loads the extensions *)

(** A root context with its commands, the [warnings] it collects and what
    it passes to [warn]. *)
Record CLI := mkCLI {
  root : Context;
  registry : Registry;
  warnings : list JsError;
  warned : list JsError
}.

(** [params.extensions]: an array of extensions, or an object from name to
    extension. *)
Inductive Extensions :=
| ExtArray (exts : list ExtensionRef)
| ExtObject (entries : list (string * ExtensionRef)).

(** One turn of the loops of cli.js 184-200:
<<
    try {
        this.extension(ext, name);
    } catch (e) {
        this.warnings.push(e);
        warn(e);
    }
>> *)
Definition CLI_extension (env : Env) (this : CLI) (ext : ExtensionRef)
    (extName : JsValue) : CLI :=
  match Context_extension env (root this) (registry this) ext extName with
  | Ok reg => mkCLI (root this) reg (warnings this) (warned this)
  | Throw e =>
      mkCLI (root this) (registry this)
            (warnings this ++ [e])%list (warned this ++ [e])%list
  end.

(** cli.js 181-202, the last statement of the constructor. *)
Definition CLI_extensions (env : Env) (this : CLI) (extensions : option Extensions)
  : CLI :=
  match extensions with
  | Some (ExtArray exts) =>
      foldl (fun this ext => CLI_extension env this ext JUndefined) this exts
  | Some (ExtObject entries) =>
      foldl (fun this '(extName, ext) => CLI_extension env this ext (JStr extName))
            this entries
  | None => this
  end.

(** ** cli.js: [exec] *)

(** What [parser.parse] resolves with.  A slot of [contexts] holds a
    context or [undefined]. *)
Record ParseResult := mkParseResult {
  pr_args : list string;                       (* [_] *)
  pr_argv : gmap string JsValue;
  pr_contexts : list (option Context);
  pr_unknown : gmap string JsValue
}.

(** The arrays of contexts, by identity.  [results.contexts] and the
    local [contexts] of [exec] are the same array: what [unshift] does to
    one shows in the other. *)
Abbreviation Heap := (gmap nat (list (option Context))).

(** The array that [parser.parse] returned. *)
Definition contexts_loc : nat := 0.

(** The [results] record (cli.js 242-249, 281); [help] is the command
    that [results.help()] renders.  [console] is left out. *)
Record Results := mkResults {
  res_args : list string;
  res_argv : gmap string JsValue;
  res_contexts : nat;
  res_unknown : gmap string JsValue;
  res_warnings : list JsError;
  res_help : option Context
}.

(** What an action is called with: [results], or the record of the
    [catch] block (cli.js 296-300). *)
Inductive ActionArg :=
| ArgResults (results : Results) (heap : Heap)
| ArgError (contexts : list (option Context)) (err : JsError)
           (warnings : list JsError).

(** The collaborators of [exec]. *)
Record Run := mkRun {
  (* [semver.satisfies(process.version, range)] *)
  satisfies : string -> bool;
  (* the [engines.node] of cli-kit's own package.json *)
  clikitNodeVersion : string;
  (* [await parser.parse(unparsedArgs || process.argv.slice(2), this)] *)
  parse : Result ParseResult;
  (* [parser.contexts], when truthy *)
  parser_contexts : option (list (option Context));
  (* [err.contexts], when truthy *)
  err_contexts : JsError -> option (list (option Context));
  (* [await banner()] *)
  call_banner : Closure -> Result JsValue;
  (* [await cmd.action(arg)] *)
  call_action : Closure -> ActionArg -> Result JsValue
}.

(** [argv.help], [argv.banner] *)
Definition argv_get (argv : gmap string JsValue) (key : string) : JsValue :=
  default JUndefined (argv !! key).

(** [contexts[0]] *)
Definition first_context (contexts : list (option Context)) : option Context :=
  mjoin (head contexts).

(** [this.help && argv.help &&
     (!(cmd instanceof Extension) || cmd.isCLIKitExtension)] (cli.js 252) *)
Definition help_selected (this : CLI) (argv : gmap string JsValue)
    (cmd : option Context) : bool :=
  truthy (read (root this) "help")
  && truthy (argv_get argv "help")
  && match cmd with
     | Some c => negb (instanceof_Extension (kind c))
                 || truthy (read c "isCLIKitExtension")
     | None => true
     end.

(** [!(cmd instanceof Command) && this.defaultCommand &&
     this.commands.has(this.defaultCommand)] (cli.js 257) *)
Definition default_selected (this : CLI) (cmd : option Context) : bool :=
  negb match cmd with
       | Some c => instanceof_Command (kind c)
       | None => false
       end
  && truthy (read (root this) "defaultCommand")
  && commands_has (commands (registry this)) (read (root this) "defaultCommand").

(** cli.js 233 and 251-261: the command to run and the array [contexts]
    afterwards. *)
Definition select_command (this : CLI) (argv : gmap string JsValue)
    (contexts : list (option Context))
  : option Context * list (option Context) :=
  let cmd := first_context contexts in
  if help_selected this argv cmd then
    let cmd := commands_get (commands (registry this)) (JStr "help") in
    (cmd, cmd :: contexts)
  else if default_selected this cmd then
    let cmd := commands_get (commands (registry this))
                            (read (root this) "defaultCommand") in
    (cmd, cmd :: contexts)
  else (cmd, contexts).

(** cli.js 263-279: the banner that is shown at the first write to
    [stdout] or [stderr], if any. *)
Definition wire_banner (run : Run) (this : CLI) (cmd : Context)
  : Result (option string) :=
  let banner := js_or (read cmd "banner") (get (root this) "banner" JUndefined) in
  if truthy banner then
    if instanceof_Extension (kind cmd)
       && negb (truthy (read cmd "isCLIKitExtension"))
       && negb (truthy (get cmd "showBannerForExternalCLIs" JUndefined))
    then Ok None
    else
      let! text := match banner with
                   | JFun f => call_banner run f
                   | _ => Ok banner
                   end in
      Ok (Some (trim (js_String text)))
  else Ok None.

(** How the [try] block of [exec] ends. *)
Inductive Dispatch :=
| Invoke (cmd : Context) (action : Closure) (results : Results) (heap : Heap)
         (banner : option string)          (* [return await cmd.action(results)] *)
| Return (results : Results) (heap : Heap)
         (banner : option string)          (* [return results] *)
| Raise (e : JsError).

(** The [try] block of [exec] after parsing (cli.js 233-290). *)
Definition exec_try (run : Run) (this : CLI) (pr : ParseResult) : Dispatch :=
  let heap : Heap := {[ contexts_loc := pr_contexts pr ]} in
  let results :=
    mkResults (pr_args pr) (pr_argv pr) contexts_loc (pr_unknown pr)
              (warnings this) None in
  let selected := select_command this (pr_argv pr) (pr_contexts pr) in
  let heap : Heap := <[ contexts_loc := snd selected ]> heap in
  match fst selected with
  | None => Raise (TypeError "Cannot read properties of undefined (reading 'banner')")
  | Some cmd =>
      match wire_banner run this cmd with
      | Throw e => Raise e
      | Ok banner =>
          let results :=
            mkResults (res_args results) (res_argv results) (res_contexts results)
                      (res_unknown results) (res_warnings results) (Some cmd) in
          match read cmd "action" with
          | JFun action => Invoke cmd action results heap banner
          | _ => Return results heap banner
          end
      end
  end.

(** What [exec] resolves with. *)
Inductive ExecValue :=
| Returned (results : Results) (heap : Heap)
| ActionValue (v : JsValue).

(** The [catch] block of [exec] (cli.js 291-303). *)
Definition exec_catch (run : Run) (this : CLI) (err : JsError) : Result ExecValue :=
  let help :=
    if truthy (read (root this) "help")
       && negb (bool_decide (read (root this) "showHelpOnError" = JBool false))
    then commands_get (commands (registry this)) (JStr "help")
    else None in
  match help with
  | Some help =>
      match read help "action" with
      | JFun action =>
          let contexts :=
            match err_contexts run err with
            | Some cs => cs
            | None => default [Some (root this)] (parser_contexts run)
            end in
          let! v := call_action run action (ArgError contexts err (warnings this)) in
          Ok (ActionValue v)
      | _ => Throw (TypeError "help.action is not a function")
      end
  | None => Throw err
  end.

(** [CLI.exec] (cli.js 213-308).  [unparsedArgs] is an array or absent by
    its type; the [finally] block ends the two streams and changes
    nothing of what is returned or thrown.  The message of
    [INVALID_NODE_JS] names the application and the two versions, which
    are not kept here. *)
Definition CLI_exec (run : Run) (this : CLI) : Result ExecValue :=
  let required := read (root this) "nodeVersion" in
  if (truthy required && negb (satisfies run (js_String required)))
     || negb (satisfies run (clikitNodeVersion run))
  then Throw (E INVALID_NODE_JS "requires Node.js version")
  else
    match parse run with
    | Throw err => exec_catch run this err
    | Ok pr =>
        match exec_try run this pr with
        | Invoke cmd action results heap _ =>
            match call_action run action (ArgResults results heap) with
            | Ok v => Ok (ActionValue v)
            | Throw err => exec_catch run this err
            end
        | Return results heap _ => Ok (Returned results heap)
        | Raise err => exec_catch run this err
        end
    end.

(** ** The variants of an extension, in the spec's words *)



(** What the claim calls computing the stdio descriptor: a stream of the
    child is inherited, unless the extension is a cli-kit one and the
    terminal's stream is not the stream of the process, in which case it
    is piped. *)
Definition descriptor (clikit : bool) (terminal_stream process_stream : JsValue)
  : Stdio :=
  if clikit then
    if decide (terminal_stream = process_stream) then inherit else pipe
  else inherit.







(** ** The loading of extensions, in the spec's words *)

(** The calls of [this.extension] that the constructor makes, in order. *)
Definition extension_calls (extensions : option Extensions)
  : list (ExtensionRef * JsValue) :=
  match extensions with
  | Some (ExtArray exts) => map (fun ext => (ext, JUndefined)) exts
  | Some (ExtObject entries) =>
      map (fun '(extName, ext) => (ext, JStr extName)) entries
  | None => []
  end.

(** The load failures: what the calls throw, one after the other, each
    call seeing the commands that the calls before it registered. *)
Fixpoint load_failures (env : Env) (this : Context) (reg : Registry)
    (calls : list (ExtensionRef * JsValue)) : list JsError :=
  match calls with
  | [] => []
  | (ext, extName) :: rest =>
      match Context_extension env this reg ext extName with
      | Throw e => e :: load_failures env this reg rest
      | Ok reg' => load_failures env this reg' rest
      end
  end.

(** ** The selection of the command, in the spec's words *)

(** The four ranks of the priority: the help command, the explicit
    command that the parser found, the registered default command, no
    command. *)
Inductive Selection :=
| SelHelp
| SelExplicit (cmd : Context)
| SelDefault
| SelNone.

(** The terminal context is an [Extension] that is not a cli-kit one. *)
Definition opaque_extension (terminal : option Context) : bool :=
  match terminal with
  | Some c => instanceof_Extension (kind c)
              && negb (truthy (read c "isCLIKitExtension"))
  | None => false
  end.

(** The default command is registered. *)
Definition default_registered (this : CLI) : bool :=
  truthy (read (root this) "defaultCommand")
  && commands_has (commands (registry this)) (read (root this) "defaultCommand").

(** Help when it is enabled and its flag was parsed, unless the terminal
    context is a non-cli-kit extension; else the command the parser
    found; else the registered default command; else no command. *)
Definition priority (this : CLI) (argv : gmap string JsValue)
    (terminal : option Context) : Selection :=
  if truthy (read (root this) "help") && truthy (argv_get argv "help")
     && negb (opaque_extension terminal)
  then SelHelp
  else
    match terminal with
    | Some c =>
        if instanceof_Command (kind c) then SelExplicit c
        else if default_registered this then SelDefault else SelNone
    | None => if default_registered this then SelDefault else SelNone
    end.

(** The command that [exec] runs, and whether it was selected instead of
    the context the parser ended on: the help command and the default
    command are, the context of the parser is not. *)
Definition selected (this : CLI) (pr : ParseResult) : option Context * bool :=
  let terminal := first_context (pr_contexts pr) in
  match priority this (pr_argv pr) terminal with
  | SelHelp => (commands (registry this) !! "help", true)
  | SelExplicit cmd => (Some cmd, false)
  | SelDefault =>
      (commands_get (commands (registry this)) (read (root this) "defaultCommand"),
       true)
  | SelNone => (terminal, false)
  end.

(** The [results] record is made of the parse result [pr] and of the
    warnings of the CLI. *)
Definition results_of (this : CLI) (pr : ParseResult) (results : Results) : Prop :=
  res_args results = pr_args pr
  /\ res_argv results = pr_argv pr
  /\ res_unknown results = pr_unknown pr
  /\ res_warnings results = warnings this.

(** [exec] ends its [try] block with the command [cmd] and the array
    [contexts]: it awaits the action of the command on [results] when the
    action is a function, and returns [results] otherwise; [results.help]
    renders the command and [results.contexts] is the array. *)
Definition dispatches (this : CLI) (pr : ParseResult) (d : Dispatch)
    (cmd : Context) (contexts : list (option Context)) : Prop :=
  exists results heap banner,
    d = match read cmd "action" with
        | JFun action => Invoke cmd action results heap banner
        | _ => Return results heap banner
        end
    /\ results_of this pr results
    /\ res_help results = Some cmd
    /\ heap !! res_contexts results = Some contexts.

(** The banner, when it is a function, returns. *)
Definition banner_returns (run : Run) : Prop :=
  forall f, exists text, call_banner run f = Ok text.

(** ** The reserved properties, in the spec's words *)

(** The properties that mixing a context must not copy. *)
Definition reserved : list string :=
  ["args"; "commands"; "options"; "lookup"; "_events"; "_links"].

(** ** Sample data *)

Definition sample_command (n : string) (als : list (string * bool)) : Context :=
  mkContext KCommand n ∅ als [] [] (mkLookup ∅ ∅) None.

(** A process whose streams are the objects 1, 2 and 3, and a terminal,
    the object 10, on these very streams.  Nothing is on [PATH] and
    nothing on disk. *)
Definition sample_env : Env :=
  mkEnv (fun _ => None) (fun _ => false)
        (fun _ => Throw (E INVALID_PACKAGE_JSON "no package.json"))
        (fun _ => Throw (TypeError "Cannot find module"))
        (fun p => p) "/usr/bin/node"
        (JObj 1) (JObj 2) (JObj 3)
        {[ 10 := mkTerminal (JObj 1) (JObj 2) (JObj 3) ]}.

(** A root context that holds the terminal. *)
Definition sample_root : Context :=
  mkContext KCLI "program" {[ "terminal" := JObj 10 ]} [] [] []
            (mkLookup ∅ ∅) None.

(** An extension for [/bin/ls] under that root, and one without an
    executable. *)
Definition sample_ls : Context :=
  mkContext KExtension "ls"
            {[ "executable" := JStr "/bin/ls";
               "isCLIKitExtension" := JBool false;
               "action" := JFun FnExec ]}
            [] [JStr "-l"] [] (mkLookup ∅ ∅) (Some sample_root).

Definition sample_stub : Context :=
  mkContext KExtension "gone"
            {[ "executable" := JNull;
               "isCLIKitExtension" := JBool false;
               "action" := JFun (FnExtensionNotFound "gone") ]}
            [] [] [] (mkLookup ∅ ∅) (Some sample_root).

(** The same process with [ls] on the [PATH] and nothing on disk. *)
Definition sample_path : Env :=
  mkEnv (fun p => if String.eqb p "ls" then Some "/bin/ls" else None)
        (fun _ => false)
        (fun _ => Throw (E INVALID_PACKAGE_JSON "no package.json"))
        (fun _ => Throw (TypeError "Cannot find module"))
        (fun p => p) "/usr/bin/node"
        (JObj 1) (JObj 2) (JObj 3)
        {[ 10 := mkTerminal (JObj 1) (JObj 2) (JObj 3) ]}.

(** A process whose terminal, the object 11, writes its output to a
    stream of its own, the object 20; a root that holds this terminal,
    and under it a cli-kit extension that was given an executable. *)
Definition sample_captured : Env :=
  mkEnv (fun _ => None) (fun _ => false)
        (fun _ => Throw (E INVALID_PACKAGE_JSON "no package.json"))
        (fun _ => Throw (TypeError "Cannot find module"))
        (fun p => p) "/usr/bin/node"
        (JObj 1) (JObj 2) (JObj 3)
        {[ 11 := mkTerminal (JObj 1) (JObj 20) (JObj 3) ]}.

Definition sample_captured_root : Context :=
  mkContext KCLI "program" {[ "terminal" := JObj 11 ]} [] [] []
            (mkLookup ∅ ∅) None.

Definition sample_tool : Context :=
  mkContext KExtension "tool"
            {[ "executable" := JStr "/usr/bin/tool";
               "isCLIKitExtension" := JBool true ]}
            [] [JStr "--fast"] [] (mkLookup ∅ ∅) (Some sample_captured_root).

(** A package on disk at [ext/pkg] that declares cli-kit and whose main
    file exports a plain object. *)
Definition sample_package : Package :=
  mkPackage (Some "ext/pkg/index.js")
            (mkPackageJson (JStr "pkg") None None JUndefined)
            true.

Definition sample_disk (export : Result Module) : Env :=
  mkEnv (fun _ => None)
        (fun p => String.eqb p "ext/pkg")
        (fun _ => Ok sample_package)
        (fun _ => export)
        (fun p => p) "/usr/bin/node"
        (JObj 1) (JObj 2) (JObj 3)
        {[ 10 := mkTerminal (JObj 1) (JObj 2) (JObj 3) ]}.

Definition sample_plain_export : Result Module :=
  Ok (Plain (XObject (mkParams None {[ "hello" := JStr "world" ]} [] [] None))).

Definition sample_broken_export : Result Module :=
  Throw (mkError None "SyntaxError" "Unexpected token" "SyntaxError: Unexpected token").

(** The parameters [Context.extension] makes for [ext/pkg], here with
    [ignoreInvalidExtensions] set. *)
Definition sample_lenient_params : Params :=
  mkParams None
           {[ "extensionPath" := JStr "ext/pkg";
              "name" := JUndefined;
              "ignoreInvalidExtensions" := JBool true ]}
           [] [] (Some sample_root).


(** A root as the constructor of the CLI leaves it before the extensions
    are loaded: [ignoreInvalidExtensions] is not among the parameters it
    hands to [super], so the root does not declare it and it reads as
    false. *)
Definition sample_strict_root : Context :=
  mkContext KCLI "program" {[ "title" := JStr "Global"; "colors" := JBool true ]}
            [] [] [] (mkLookup ∅ ∅) None.

Definition sample_strict_cli : CLI :=
  mkCLI sample_strict_root (mkRegistry ∅ ∅) [] [].

(** A CLI with the built-in help: the root, the help command, and a
    command [build] whose action is the consumer's. *)
Definition sample_help_root : Context :=
  mkContext KCLI "program"
            {[ "help" := JBool true; "defaultCommand" := JStr "help" ]}
            [] [] [] (mkLookup ∅ ∅) None.

Definition sample_help : Context :=
  mkContext KCommand "help" {[ "action" := JFun (FnUser 0) ]}
            [] [] [] (mkLookup ∅ ∅) (Some sample_help_root).

Definition sample_build : Context :=
  mkContext KCommand "build" {[ "action" := JFun (FnUser 1) ]}
            [] [] [] (mkLookup ∅ ∅) (Some sample_help_root).

Definition sample_help_cli : CLI :=
  mkCLI sample_help_root
        (mkRegistry {[ "help" := sample_help; "build" := sample_build ]}
                    {[ "help" := sample_help; "build" := sample_build ]})
        [] [].

(** A CLI whose [defaultCommand] names a command that is not registered. *)
Definition sample_lost_root : Context :=
  mkContext KCLI "program" {[ "defaultCommand" := JStr "start" ]}
            [] [] [] (mkLookup ∅ ∅) None.

Definition sample_lost_cli : CLI :=
  mkCLI sample_lost_root (mkRegistry ∅ ∅) [] [].

(** A run in which the runtime is recent enough, the parser returns
    [pr], and the functions of the consumer return [undefined]. *)
Definition sample_run (pr : ParseResult) : Run :=
  mkRun (fun _ => true) ">=8.0.0" (Ok pr) None (fun _ => None)
        (fun _ => Ok JUndefined) (fun _ _ => Ok JUndefined).

(** [program --help], [program build] and [program], parsed. *)
Definition sample_parse_help : ParseResult :=
  mkParseResult [] {[ "help" := JBool true ]} [Some sample_help_root] ∅.

Definition sample_parse_build : ParseResult :=
  mkParseResult [] ∅ [Some sample_build; Some sample_help_root] ∅.

Definition sample_parse_lost : ParseResult :=
  mkParseResult [] ∅ [Some sample_lost_root] ∅.

(** Parameters with a property of the consumer's whose name happens to
    contain [args]. *)
Definition sample_kwargs_params : Params :=
  mkParams None {[ "kwargs" := JNum 1; "title" := JStr "Tools" ]} [] [] None.

(** ** Proof tools *)

(** Reading a property off a context whose properties are written out. *)
Ltac reads :=
  unfold read, write; cbn [props];
  repeat (rewrite lookup_insert; case_decide; try done); try done.

(** Writing out the properties of a context after [write]. *)
Ltac flatten :=
  unfold write;
  cbn [kind name props aliases execArgs options lookup parent negb bind].

(* ===================================================================== *)
(** * Further code of the same files *)
(* ===================================================================== *)

(** ** context.js: the commands of a context *)

(** What [registerCommand] keeps true of the commands of a context: a
    command is listed under its own name, can be looked up under that
    name, and the lookup leads to listed commands only. *)
Definition registry_consistent (reg : Registry) : Prop :=
  (forall n c, commands reg !! n = Some c -> name c = n)
  /\ (forall n c, commands reg !! n = Some c -> lookup_commands reg !! n = Some c)
  /\ (forall k c, lookup_commands reg !! k = Some c ->
                  commands reg !! name c = Some c).

(** The loops at the end of the [Context] constructor (context.js
    296-310): unlike those of the CLI they have no [try], so the first
    extension that fails ends the construction.
<<
    if (params.extensions) {
        if (Array.isArray(params.extensions)) {
            for (const ext of params.extensions) {
                this.extension(ext);
            }
        } else {
            for (const [ name, ext ] of Object.entries(params.extensions)) {
                this.extension(ext, name);
            }
        }
    }
>> *)
Definition Context_extensions (env : Env) (this : Context) (reg : Registry)
    (extensions : option Extensions) : Result Registry :=
  match extensions with
  | Some (ExtArray exts) =>
      foldl (fun acc ext =>
               let! reg := acc in Context_extension env this reg ext JUndefined)
            (Ok reg) exts
  | Some (ExtObject entries) =>
      foldl (fun acc '(extName, ext) =>
               let! reg := acc in Context_extension env this reg ext (JStr extName))
            (Ok reg) entries
  | None => Ok reg
  end.

(** ** context.js: [generateHelp] *)

(** An option as the help lists it, as far as [generateHelp] looks at
    it: [long] and [short] are a name or [null]; [label] stands for what
    else the entry holds.

    Modelled from the spec: [option-list.js] is not among the sources;
    [options.generateHelp()] gives the number of options, [count], and
    the options by group, [groups]. *)
Record HelpOption := mkHelpOption {
  ho_long : option string;
  ho_short : option string;
  ho_label : string
}.

#[global] Instance HelpOption_eq_dec : EqDecision HelpOption.
Proof. solve_decision. Defined.

(** An element of [scopes]: the title, the name of the context, and the
    [count] and [groups] of its options. *)
Record HelpScope := mkHelpScope {
  sc_title : string;
  sc_name : string;
  sc_count : Z;
  sc_groups : list (string * list HelpOption)
}.

(** The sets [longs] and [shorts] of the names seen so far. *)
Record Seen := mkSeen {
  longs : gset string;
  shorts : gset string
}.

(** The body of the innermost loop before the removal (context.js
    439-454):
<<
    let nuke = false;
    if (long !== null) {
        if (longs.has(long)) { nuke = true; } else { longs.add(long); }
    }
    if (short !== null) {
        if (shorts.has(short)) { nuke = true; } else { shorts.add(short); }
    }
>> *)
Definition dedupe_entry (seen : Seen) (o : HelpOption) : bool * Seen :=
  let on_long :=
    match ho_long o with
    | Some l => if bool_decide (l ∈ longs seen) then (true, longs seen)
                else (false, {[ l ]} ∪ longs seen)
    | None => (false, longs seen)
    end in
  let on_short :=
    match ho_short o with
    | Some s => if bool_decide (s ∈ shorts seen) then (true, shorts seen)
                else (false, {[ s ]} ∪ shorts seen)
    | None => (false, shorts seen)
    end in
  (fst on_long || fst on_short, mkSeen (snd on_long) (snd on_short)).

(** The state of the loops: the options of the group that stay, the
    [count] of the scope, and the names seen. *)
Record Pass (A : Type) := mkPass {
  kept : A;
  count : Z;
  seen : Seen
}.
Arguments mkPass {A}.
Arguments kept {A}.
Arguments count {A}.
Arguments seen {A}.

(** The loop over the options of a group (context.js 438-459): an option
    that is to go is spliced out of the array, the index stays where it
    is, and the count of the scope goes down by one.
<<
    for (let i = 0; i < options.length; i++) {
        ...
        if (nuke) {
            scopes[j].count--;
            options.splice(i--, 1);
        }
    }
>> *)
Fixpoint dedupe_options (s : Seen) (n : Z) (options : list HelpOption)
  : Pass (list HelpOption) :=
  match options with
  | [] => mkPass [] n s
  | o :: rest =>
      let r := dedupe_entry s o in
      if fst r then dedupe_options (snd r) (n - 1)%Z rest
      else
        let p := dedupe_options (snd r) n rest in
        mkPass (o :: kept p) (count p) (seen p)
  end.

(** The loop over [Object.entries(scopes[j].groups)] (context.js 437). *)
Fixpoint dedupe_groups (s : Seen) (n : Z) (groups : list (string * list HelpOption))
  : Pass (list (string * list HelpOption)) :=
  match groups with
  | [] => mkPass [] n s
  | (group, options) :: rest =>
      let p := dedupe_options s n options in
      let q := dedupe_groups (seen p) (count p) rest in
      mkPass ((group, kept p) :: kept q) (count q) (seen q)
  end.

(** The loop [while (j--)] over the scopes (context.js 433-461): it
    starts at the last scope, which is the one of the root, with nothing
    seen. *)
Definition dedupe_scopes (scopes : list HelpScope) : list HelpScope :=
  kept (foldr (fun sc acc =>
                 let p := dedupe_groups (seen acc) (sc_count sc) (sc_groups sc) in
                 mkPass (mkHelpScope (sc_title sc) (sc_name sc) (count p) (kept p)
                           :: kept acc)
                        0%Z (seen p))
              (mkPass [] 0%Z (mkSeen ∅ ∅)) scopes).

(** What [generateHelp] returns, as far as the options go: [contexts],
    and [options] with its [count] and [scopes].  The description, the
    commands, the arguments and the usage line are made of what
    [command-list.js] and [argument-list.js] give, which are not among the
    sources, and are left out. *)
Record Help := mkHelp {
  help_contexts : list string;
  help_count : Z;
  help_scopes : list HelpScope
}.

(** [Context.generateHelp] (context.js 410-509), the function that the
    hook wraps; [options_help ctx] is [ctx.options.generateHelp()].
<<
    while (ctx) {
        scopes.push({
            title: `${ctx.title} options`,
            name: ctx.name,
            ...ctx.options.generateHelp()
        });
        results.contexts.unshift(ctx.name);
        ctx = ctx.parent;
    }
    ...
    results.options = {
        count: scopes.reduce((p, c) => p + c.count, 0),
        scopes
    };
>> *)
Definition generateHelp
    (options_help : Context -> Z * list (string * list HelpOption))
    (this : Context) : Help :=
  let scopes :=
    map (fun ctx =>
           mkHelpScope (js_String (read ctx "title") ++ " options") (name ctx)
                       (fst (options_help ctx)) (snd (options_help ctx)))
        (chain this) in
  let contexts := rev (map name (chain this)) in
  let scopes := dedupe_scopes scopes in
  mkHelp contexts (foldl (fun p c => (p + sc_count c)%Z) 0%Z scopes) scopes.

(** *** The help, in words *)

(** The options of a scope, in the order of the groups. *)
Definition scope_options (sc : HelpScope) : list HelpOption :=
  concat (map snd (sc_groups sc)).

(** The options of the scopes in the order the help gives them their
    names: the scope of the root first, the scope of the context
    itself last. *)
Definition help_order (scopes : list HelpScope) : list HelpOption :=
  concat (map scope_options (rev scopes)).

(** An option is shadowed by the options before it when one of them has
    its long name, or its short name. *)
Definition shadowed (earlier : list HelpOption) (o : HelpOption) : bool :=
  existsb (fun e =>
             match ho_long o with
             | Some l => bool_decide (ho_long e = Some l)
             | None => false
             end
             || match ho_short o with
                | Some s => bool_decide (ho_short e = Some s)
                | None => false
                end)
          earlier.

(** The options that are not shadowed by an option before them, shown or
    not. *)
Fixpoint visible (earlier : list HelpOption) (options : list HelpOption)
  : list HelpOption :=
  match options with
  | [] => []
  | o :: rest =>
      (if shadowed earlier o then [] else [o]) ++ visible (earlier ++ [o]) rest
  end.

(** The names seen are the names of the options gone through. *)
Definition seen_of (s : Seen) (earlier : list HelpOption) : Prop :=
  longs s = list_to_set (omap ho_long earlier)
  /\ shorts s = list_to_set (omap ho_short earlier).

(* ===================================================================== *)
(** * Properties *)
(* ===================================================================== *)


(** ** Scoped property reads *)

Lemma get_unfold c name d :
  get c name d =
  let value := match parent c with
               | None => read c name
               | Some p0 => get_loop name p0 (read c name)
               end in
  if is_defined value then value else d.
Proof. destruct c; reflexivity. Qed.

Lemma get_loop_unfold name p value :
  get_loop name p value =
  match parent p with
  | None => get p name value
  | Some p' => get_loop name p' (get p name value)
  end.
Proof. destruct p as [? ? ? ? ? ? ? [p'|]]; reflexivity. Qed.

Lemma prop_unfold c name d :
  prop c name d =
  let value := match parent c with
               | None => read c name
               | Some p0 => prop_loop name p0 (read c name)
               end in
  if is_defined value then value else d.
Proof. destruct c; reflexivity. Qed.

Lemma prop_loop_unfold name p value :
  prop_loop name p value =
  if is_defined value then value
  else match parent p with
       | None => prop p name value
       | Some p' => prop_loop name p' (prop p name value)
       end.
Proof. destruct p as [? ? ? ? ? ? ? [p'|]]; reflexivity. Qed.

(** Induction along the parent link. *)
Lemma Context_chain_ind (P : Context -> Prop) :
  (forall c, parent c = None -> P c) ->
  (forall c p, parent c = Some p -> P p -> P c) ->
  forall c, P c.
Proof.
  intros Hroot Hstep.
  fix IH 1. intros c. destruct (parent c) as [p|] eqn:Hp.
  - apply (Hstep c p Hp). destruct c; cbn in Hp; subst. apply IH.
  - by apply Hroot.
Qed.

Lemma declared_unfold c name :
  declared c name =
  read c name :: match parent c with
                 | None => []
                 | Some p => declared p name
                 end.
Proof. destruct c as [? ? ? ? ? ? ? [p|]]; reflexivity. Qed.

Lemma topmost_defined_is_defined vs w :
  topmost_defined vs = Some w -> is_defined w = true.
Proof.
  induction vs as [|v rest IH]; cbn; [discriminate|].
  destruct (topmost_defined rest) as [w'|].
  - intros [= ->]. by apply IH.
  - destruct (is_defined v) eqn:Hv; [|discriminate]. by intros [= <-].
Qed.

Lemma bottommost_defined_is_defined vs w :
  bottommost_defined vs = Some w -> is_defined w = true.
Proof.
  induction vs as [|v rest IH]; cbn; [discriminate|].
  destruct (is_defined v) eqn:Hv; [by intros [= <-] | exact IH].
Qed.

Lemma get_as_topmost c name :
  (forall d, get c name d = default d (topmost_defined (declared c name))) /\
  (forall v, get_loop name c v = default v (topmost_defined (declared c name))).
Proof.
  induction c as [c Hc | c p Hp [IHget IHloop]] using Context_chain_ind.
  - split; intros d.
    + rewrite get_unfold, declared_unfold, Hc. cbn.
      destruct (is_defined _); reflexivity.
    + rewrite get_loop_unfold, get_unfold, declared_unfold, Hc. cbn.
      destruct (is_defined _); reflexivity.
  - assert (Hget : forall d, get c name d =
              default d (topmost_defined (declared c name))).
    { intros d. rewrite get_unfold, declared_unfold, Hp.
      rewrite IHloop. cbn [topmost_defined].
      destruct (topmost_defined (declared p name)) as [w|] eqn:Htop; cbn.
      - by rewrite (topmost_defined_is_defined _ _ Htop).
      - destruct (is_defined _); reflexivity. }
    split; [exact Hget|].
    intros v. rewrite get_loop_unfold, Hp.
    rewrite IHloop, Hget, declared_unfold, Hp. cbn [topmost_defined].
    destruct (topmost_defined (declared p name)); reflexivity.
Qed.

Lemma prop_as_bottommost c name :
  (forall d, prop c name d = default d (bottommost_defined (declared c name))) /\
  (forall v, prop_loop name c v =
             if is_defined v then v
             else default v (bottommost_defined (declared c name))).
Proof.
  induction c as [c Hc | c p Hp [IHprop IHloop]] using Context_chain_ind.
  - split; intros d.
    + rewrite prop_unfold, declared_unfold, Hc. cbn.
      destruct (is_defined _); reflexivity.
    + rewrite prop_loop_unfold, prop_unfold, declared_unfold, Hc. cbn.
      destruct (is_defined d); [reflexivity|].
      destruct (is_defined _); reflexivity.
  - assert (Hprop : forall d, prop c name d =
              default d (bottommost_defined (declared c name))).
    { intros d. rewrite prop_unfold, declared_unfold, Hp.
      rewrite IHloop. cbn [bottommost_defined].
      destruct (is_defined (read _ name)) eqn:Hown; cbn.
      - by rewrite Hown.
      - destruct (bottommost_defined (declared p name)) as [w|] eqn:Hbot; cbn.
        + by rewrite (bottommost_defined_is_defined _ _ Hbot).
        + by rewrite Hown. }
    split; [exact Hprop|].
    intros v. rewrite prop_loop_unfold, Hp.
    destruct (is_defined v) eqn:Hv; [reflexivity|].
    rewrite IHloop, Hprop, declared_unfold, Hp. cbn [bottommost_defined].
    destruct (is_defined (read _ name)) eqn:Hown; cbn.
    + by rewrite Hown.
    + destruct (bottommost_defined (declared p name)) as [w|] eqn:Hbot; cbn.
      * by rewrite (bottommost_defined_is_defined _ _ Hbot).
      * by rewrite Hv.
Qed.

Lemma is_defined_true v : is_defined v = true <-> v <> JUndefined.
Proof. destruct v; cbn; split; congruence. Qed.

Lemma topmost_defined_None (vs : list JsValue) :
  topmost_defined vs = None <-> Forall (fun v => v = JUndefined) vs.
Proof.
  induction vs as [|v rest IH]; cbn.
  - split; [constructor | reflexivity].
  - destruct (topmost_defined rest) as [w|].
    + split; [discriminate|]. intros H. inversion H; subst.
      destruct IH as [_ IH]. by specialize (IH ltac:(assumption)).
    + destruct v; cbn; split; try discriminate; try reflexivity;
        try (intros H; inversion H; discriminate).
      intros _. constructor; [reflexivity | by apply IH].
Qed.

Lemma bottommost_defined_None (vs : list JsValue) :
  bottommost_defined vs = None <-> Forall (fun v => v = JUndefined) vs.
Proof.
  induction vs as [|v rest IH]; cbn.
  - split; [constructor | reflexivity].
  - destruct v; cbn; split; try discriminate;
      try (intros H; inversion H; discriminate).
    + intros H. constructor; [reflexivity | by apply IH].
    + intros H. inversion H; subst. by apply IH.
Qed.

(** The topmost declaration: position [i] holds a value that is not
    [undefined] and every position closer to the root holds [undefined]. *)
Lemma topmost_defined_at (vs : list JsValue) i v :
  vs !! i = Some v -> v <> JUndefined ->
  (forall j w, i < j -> vs !! j = Some w -> w = JUndefined) ->
  topmost_defined vs = Some v.
Proof.
  revert i. induction vs as [|x rest IH]; intros i Hi Hv Habove; [done|].
  cbn. destruct i as [|i]; cbn in Hi.
  - injection Hi as ->.
    assert (Hrest : topmost_defined rest = None).
    { apply topmost_defined_None, Forall_forall. intros w Hw.
      apply list_elem_of_lookup in Hw as [j Hj].
      apply (Habove (S j) w); [lia | exact Hj]. }
    rewrite Hrest. apply is_defined_true in Hv. by rewrite Hv.
  - rewrite (IH i Hi Hv); [reflexivity|].
    intros j w Hlt Hj. apply (Habove (S j) w); [lia | exact Hj].
Qed.

(** The bottom-most declaration: every position closer to the context the
    read started from holds [undefined]. *)
Lemma bottommost_defined_at (vs : list JsValue) i v :
  vs !! i = Some v -> v <> JUndefined ->
  (forall j w, j < i -> vs !! j = Some w -> w = JUndefined) ->
  bottommost_defined vs = Some v.
Proof.
  revert i. induction vs as [|x rest IH]; intros i Hi Hv Hbelow; [done|].
  cbn. destruct i as [|i]; cbn in Hi.
  - injection Hi as ->. apply is_defined_true in Hv. by rewrite Hv.
  - rewrite (Hbelow 0 x); [cbn | lia | reflexivity].
    apply (IH i Hi Hv). intros j w Hlt Hj.
    apply (Hbelow (S j) w); [lia | exact Hj].
Qed.

(** C3.  [get(name, default)] returns the declaration closest to the root
    that is not [undefined], so a root declaration wins over a local one;
    [prop(name, default)] returns the most local declaration that is not
    [undefined], falling back outward.  Either returns the supplied
    default when every context of the chain yields [undefined], and the
    winning declaration otherwise.  [declared c name] lists what the
    chain declares for [name], the context itself first and the root
    last. *)
Theorem get_topmost_prop_bottommost (c : Context) (name : string) (d : JsValue) :
  let vs := declared c name in
  (forall i v, vs !! i = Some v -> v <> JUndefined ->
     (forall j w, i < j -> vs !! j = Some w -> w = JUndefined) ->
     get c name d = v) /\
  (forall i v, vs !! i = Some v -> v <> JUndefined ->
     (forall j w, j < i -> vs !! j = Some w -> w = JUndefined) ->
     prop c name d = v) /\
  (Forall (fun v => v = JUndefined) vs ->
     get c name d = d /\ prop c name d = d) /\
  (get c name d = default d (topmost_defined vs)) /\
  (prop c name d = default d (bottommost_defined vs)).
Proof.
  intros vs.
  destruct (get_as_topmost c name) as [Hget _].
  destruct (prop_as_bottommost c name) as [Hprop _].
  fold vs in Hget, Hprop.
  split; [|split; [|split; [|split]]].
  - intros i v Hi Hv Habove.
    by rewrite Hget, (topmost_defined_at _ _ _ Hi Hv Habove).
  - intros i v Hi Hv Hbelow.
    by rewrite Hprop, (bottommost_defined_at _ _ _ Hi Hv Hbelow).
  - intros Hall. split.
    + apply topmost_defined_None in Hall. by rewrite Hget, Hall.
    + apply bottommost_defined_None in Hall. by rewrite Hprop, Hall.
  - apply Hget.
  - apply Hprop.
Qed.

(** A root declaration wins [get], the local one wins [prop]. *)
Example get_prop_root_vs_local :
  let node pr p := mkContext KContext "ctx" pr [] [] [] (mkLookup ∅ ∅) p in
  let root := node {[ "banner" := JStr "root" ]} None in
  let mid := node ∅ (Some root) in
  let leaf := node {[ "banner" := JStr "leaf" ]} (Some mid) in
  get leaf "banner" JNull = JStr "root" /\
  prop leaf "banner" JNull = JStr "leaf" /\
  get leaf "title" JNull = JNull /\
  prop mid "banner" JNull = JStr "root".
Proof. vm_compute. repeat split. Qed.

(** ** Registering commands *)

Lemma commands_has_str (cs : gmap string Context) k :
  commands_has cs (JStr k) = bool_decide (is_Some (cs !! k)).
Proof. reflexivity. Qed.

(** The loop over the aliases enters the command under every alias that
    is not the name of a command, and leaves every other key alone. *)
Lemma alias_loop_lookup (cs : gmap string Context) (cmd : Context)
    (als : list string) (lk : gmap string Context) (k : string) :
  foldl (fun lk alias =>
           if commands_has cs (JStr alias) then lk else <[alias := cmd]> lk)
        lk als !! k =
  if bool_decide (k ∈ als) && negb (commands_has cs (JStr k))
  then Some cmd else lk !! k.
Proof.
  revert lk. induction als as [|a rest IH]; intros lk; cbn [foldl].
  - reflexivity.
  - rewrite IH. destruct (decide (k = a)) as [->|Hne].
    + rewrite (bool_decide_eq_true_2 (a ∈ a :: rest)) by left.
      destruct (commands_has cs (JStr a)) eqn:Hhas; cbn.
      * by rewrite andb_false_r.
      * rewrite andb_true_r, lookup_insert_eq. by destruct (bool_decide _).
    + assert (Hin : bool_decide (k ∈ a :: rest) = bool_decide (k ∈ rest)).
      { apply bool_decide_ext. rewrite elem_of_cons. split; [|by right].
        intros [Heq | Hrest]; [by destruct Hne | exact Hrest]. }
      rewrite Hin. destruct (bool_decide (k ∈ rest) && _); [reflexivity|].
      destruct (commands_has cs (JStr a)); [reflexivity|].
      by rewrite lookup_insert_ne.
Qed.

(** C5.  Registering a command whose name is the name of a registered
    command fails with [ALREADY_EXISTS] and changes nothing.  Otherwise
    the command is added under its name, and an alias of the new command
    that is the name of a registered command is dropped: the entry of the
    lookup under that alias stays what it was.  Every other alias leads to
    the new command. *)
Theorem registerCommand_refuses_duplicates (this : Registry) (cmd : Context) :
  (is_Some (commands this !! name cmd) ->
     exists msg, registerCommand this cmd = Throw (E ALREADY_EXISTS msg)) /\
  (commands this !! name cmd = None ->
     exists this',
       registerCommand this cmd = Ok this' /\
       commands this' = <[name cmd := cmd]> (commands this) /\
       lookup_commands this' !! name cmd = Some cmd /\
       (forall alias,
          alias ∈ map fst (aliases cmd) ->
          is_Some (commands this !! alias) ->
          lookup_commands this' !! alias = lookup_commands this !! alias) /\
       (forall alias,
          alias ∈ map fst (aliases cmd) ->
          commands this !! alias = None ->
          lookup_commands this' !! alias = Some cmd)).
Proof.
  split.
  - intros Hdup. unfold registerCommand. rewrite commands_has_str.
    rewrite bool_decide_eq_true_2 by exact Hdup. eauto.
  - intros Hfresh. unfold registerCommand. rewrite commands_has_str.
    rewrite bool_decide_eq_false_2 by (rewrite Hfresh; by intros [? ?]).
    eexists. split; [reflexivity|]. cbn [commands lookup_commands].
    split; [reflexivity|].
    split; [|split].
    + rewrite alias_loop_lookup, lookup_insert_eq.
      by destruct (_ && _).
    + intros alias Hin Hreg. rewrite alias_loop_lookup.
      assert (Hne : name cmd <> alias).
      { intros <-. rewrite Hfresh in Hreg. by destruct Hreg. }
      rewrite commands_has_str, lookup_insert_ne by exact Hne.
      rewrite (bool_decide_eq_true_2 (is_Some _)) by exact Hreg.
      rewrite andb_false_r. by rewrite lookup_insert_ne.
    + intros alias Hin Hnone. rewrite alias_loop_lookup.
      rewrite (bool_decide_eq_true_2 (alias ∈ _)) by exact Hin.
      destruct (decide (name cmd = alias)) as [<-|Hne].
      * rewrite lookup_insert_eq. by destruct (_ && _).
      * rewrite commands_has_str, lookup_insert_ne by exact Hne.
        rewrite bool_decide_eq_false_2 by (rewrite Hnone; by intros [? ?]).
        reflexivity.
Qed.

(** [build] registers first, [make] then comes with the alias [build]:
    the alias is dropped and [build] still leads to the first command;
    a second [build] is refused. *)
Lemma registerCommand_refuses_duplicates_witness :
  let build := sample_command "build" [] in
  let make := sample_command "make" [("build", true); ("mk", true)] in
  let reg1 := mkRegistry {[ "build" := build ]} {[ "build" := build ]} in
  (exists msg, registerCommand reg1 build = Throw (E ALREADY_EXISTS msg)) /\
  (exists reg2,
     registerCommand reg1 make = Ok reg2 /\
     lookup_commands reg2 !! "build" = Some build /\
     lookup_commands reg2 !! "mk" = Some make).
Proof.
  intros build make reg1.
  destruct (registerCommand_refuses_duplicates reg1 build) as [Hdup _].
  destruct (registerCommand_refuses_duplicates reg1 make) as [_ Hfresh].
  split.
  - apply Hdup. by eexists.
  - destruct Hfresh as (reg2 & Hreg & _ & _ & Hkept & Hnew); [reflexivity|].
    exists reg2. split; [exact Hreg|]. split.
    + rewrite (Hkept "build"); [reflexivity | | by eexists].
      cbn. set_solver.
    + apply Hnew; [cbn; set_solver | reflexivity].
Defined.

(** ** Running an extension *)

(** C10.  An extension whose [executable] is null runs nothing: [exec]
    returns a promise rejected with [NO_EXECUTABLE], and no child process
    is spawned. *)
Theorem exec_null_executable_rejects (env : Env) (this : Context) :
  read this "executable" = JNull ->
  exists e,
    Extension_exec env this = Settles (Rejected e) [] /\
    e_code e = Some NO_EXECUTABLE.
Proof.
  intros Hnull. unfold Extension_exec. rewrite Hnull. cbn.
  eexists. split; reflexivity.
Qed.

Lemma exec_null_executable_rejects_witness :
  exists e,
    Extension_exec sample_env sample_stub = Settles (Rejected e) [] /\
    e_code e = Some NO_EXECUTABLE.
Proof. apply exec_null_executable_rejects. reflexivity. Defined.

Lemma pipe_to_stream v : is_stream v -> pipe_to v = Ok v.
Proof. by intros [id ->]. Qed.

Lemma stdio_for_descriptor this stream processStream :
  stdio_for this stream processStream =
  descriptor (truthy (read this "isCLIKitExtension")) stream processStream.
Proof.
  unfold stdio_for, descriptor.
  destruct (truthy _); cbn [negb orb]; [|reflexivity].
  case_bool_decide; by case_decide.
Qed.



(** The output of the child is piped to a stream of the terminal exactly
    when the entry of [stdio] is [pipe]. *)
Lemma piped_when (stdio : list Stdio) (i : nat) (d : Stdio) (dest : JsValue) :
  stdio !! i = Some d ->
  (d = pipe -> is_stream dest) ->
  (if bool_decide (stdio !! i = Some pipe)
   then (let! x := pipe_to dest in Ok [x])
   else Ok []) =
  Ok (if decide (d = pipe) then [dest] else []).
Proof.
  intros -> Hs. case_bool_decide as Hb; case_decide as Hd; try congruence.
  rewrite (pipe_to_stream _ (Hs Hd)). reflexivity.
Qed.

(** C7, as the code has it.  An extension with an executable whose chain
    declares a terminal: [exec] spawns the executable with [execArgs] and
    a [stdio] of three entries, for [stdin], [stdout] and [stderr] in
    this order, each of them [inherit], except that a cli-kit extension
    has [pipe] where the stream of the terminal is not the stream of the
    process; the output that is piped goes to the streams of the
    terminal.  The promise is pending until the child closes and is then
    resolved with the code, whatever the code is, and with 0 when there
    is none: it is never rejected for the code.  The executable is a
    non-empty string, as [which.sync] and [process.execPath] give it; the
    [stdout] and [stderr] of the terminal are streams when the extension
    is a cli-kit extension. *)
Theorem exec_spawns_and_resolves (env : Env) (this : Context)
    (executable : string) (t : Terminal) :
  read this "executable" = JStr executable ->
  executable <> EmptyString ->
  terminal_of env (get this "terminal" JUndefined) = Ok t ->
  (truthy (read this "isCLIKitExtension") = false \/
   (is_stream (stdout t) /\ is_stream (stderr t))) ->
  let clikit := truthy (read this "isCLIKitExtension") in
  let on_stdin := descriptor clikit (stdin t) (process_stdin env) in
  let on_stdout := descriptor clikit (stdout t) (process_stdout env) in
  let on_stderr := descriptor clikit (stderr t) (process_stderr env) in
  exists on_close,
    Extension_exec env this =
      Pending (mkSpawn (JStr executable) (execArgs this)
                       [on_stdin; on_stdout; on_stderr])
              ((if decide (on_stdout = pipe) then [stdout t] else [])
                 ++ (if decide (on_stderr = pipe) then [stderr t] else []))%list
              on_close /\
    (forall code, on_close code = Resolved (if is_defined code then code else JNum 0)) /\
    (forall code e, on_close code <> Rejected e).
Proof.
  intros Hexe Hne Hterm Hstreams. cbn zeta. unfold Extension_exec.
  rewrite Hexe, Hterm. cbn [truthy negb].
  assert (String.eqb executable EmptyString = false) as ->
    by (by apply String.eqb_neq).
  cbn [negb]. rewrite !stdio_for_descriptor.
  set (on_stdout := descriptor _ (stdout t) (process_stdout env)).
  set (on_stderr := descriptor _ (stderr t) (process_stderr env)).
  set (on_stdin := descriptor _ (stdin t) (process_stdin env)).
  rewrite (piped_when [on_stdin; on_stdout; on_stderr] 1 on_stdout (stdout t) eq_refl),
          (piped_when [on_stdin; on_stdout; on_stderr] 2 on_stderr (stderr t) eq_refl).
  - cbn [bind].
    eexists. split; [reflexivity|]. split; [reflexivity|].
    intros code e. discriminate.
  - intros Hd. destruct Hstreams as [Hplain | [_ Hs]]; [|exact Hs].
    subst on_stderr. unfold descriptor in Hd.
    destruct (truthy (read this "isCLIKitExtension")); done.
  - intros Hd. destruct Hstreams as [Hplain | [Hs _]]; [|exact Hs].
    subst on_stdout. unfold descriptor in Hd.
    destruct (truthy (read this "isCLIKitExtension")); done.
Qed.

(** A cli-kit extension under a terminal that captures the output: the
    child's [stdout] is piped to the stream of the terminal, and the
    code the child closes with resolves the promise. *)
Lemma exec_spawns_and_resolves_witness :
  exists on_close,
    Extension_exec sample_captured sample_tool =
      Pending (mkSpawn (JStr "/usr/bin/tool") [JStr "--fast"] [inherit; pipe; inherit])
              [JObj 20] on_close /\
    on_close (JNum 2) = Resolved (JNum 2) /\
    on_close JUndefined = Resolved (JNum 0).
Proof.
  destruct (exec_spawns_and_resolves sample_captured sample_tool "/usr/bin/tool"
              (mkTerminal (JObj 1) (JObj 20) (JObj 3)))
    as (on_close & Hexec & Hcode & _).
  - reflexivity.
  - discriminate.
  - reflexivity.
  - right. split; eexists; reflexivity.
  - exists on_close. split; [exact Hexec|].
    split; apply Hcode.
Defined.

(** C7 as it is stated fails: the constructor of the CLI hands no
    terminal to the root, so that an extension it loads, here [ls] found
    on the [PATH], has an executable and no terminal in its chain; the
    destructuring of [this.get('terminal')] throws, the promise is
    rejected with a [TypeError], and nothing is spawned. *)
Lemma exec_without_terminal_counterexample :
  let env := sample_path in
  let cli := CLI_extensions env sample_strict_cli
               (Some (ExtArray [ExtPath (JStr "ls")])) in
  warnings cli = []
  /\ exists x,
       commands (registry cli) !! "ls" = Some x
       /\ read x "executable" = JStr "/bin/ls"
       /\ get x "terminal" JUndefined = JUndefined
       /\ (exists e, Extension_exec env x = Settles (Rejected e) []
                     /\ e_name e = "TypeError")
       /\ forall child piped on_close,
            Extension_exec env x <> Pending child piped on_close.
Proof.
  cbn zeta. split; [vm_compute; reflexivity|].
  eexists. split; [vm_compute; reflexivity|].
  split; [vm_compute; reflexivity|].
  split; [vm_compute; reflexivity|].
  match goal with
  | |- (exists e, ?s = _ /\ _) /\ _ =>
      assert (Hexec : exists e, s = Settles (Rejected e) [] /\ e_name e = "TypeError")
        by (eexists; split; [vm_compute; reflexivity | reflexivity])
  end.
  destruct Hexec as (e & He & Hname).
  split; [by exists e|].
  intros child piped on_close. rewrite He. discriminate.
Qed.

(** ** Constructing contexts and commands *)

Lemma read_write c k v k' :
  read (write c k v) k' = if decide (k = k') then v else read c k'.
Proof.
  unfold read, write. cbn. rewrite lookup_insert.
  by destruct (decide (k = k')).
Qed.

Lemma Context_option_frame this opt this' :
  Context_option this opt = Ok this' ->
  kind this' = kind this /\ name this' = name this /\ props this' = props this
  /\ aliases this' = aliases this /\ execArgs this' = execArgs this
  /\ parent this' = parent this.
Proof.
  unfold Context_option. destruct (OptionList_add _ _ _); cbn; [discriminate|].
  intros [= <-]. cbn. done.
Qed.

Lemma mix_options_throw isCLI opts e :
  foldl (fun acc opt =>
           let! this := acc in
           if mix_add isCLI this opt then Context_option this opt else Ok this)
        (Throw e) opts = Throw e.
Proof. induction opts as [|o rest IH]; cbn; [reflexivity | exact IH]. Qed.

Lemma mix_options_frame isCLI entries this this' :
  mix_options isCLI entries this = Ok this' ->
  kind this' = kind this /\ name this' = name this /\ props this' = props this
  /\ aliases this' = aliases this /\ execArgs this' = execArgs this
  /\ parent this' = parent this.
Proof.
  unfold mix_options. generalize (concat (map snd entries)) as opts.
  intros opts. revert this. induction opts as [|o rest IH]; intros this; cbn.
  - intros [= <-]. done.
  - destruct (mix_add isCLI this o).
    + destruct (Context_option this o) as [e|this1] eqn:Hopt.
      * rewrite mix_options_throw. discriminate.
      * intros Hrest. apply IH in Hrest.
        apply Context_option_frame in Hopt. destruct Hrest as (-> & -> & -> & -> & -> & ->). exact Hopt.
    + apply IH.
Qed.

(** What [super] leaves in the new object. *)
Lemma Command_new_frame nm ps super :
  Command_new nm ps = Ok super ->
  kind super = KCommand /\ name super = nm /\ execArgs super = []
  /\ parent super = p_parent ps
  /\ exists camelCase,
       props super =
       <["camelCase" := camelCase]> (copy_props (set_param ps "name" (JStr nm))).
Proof.
  unfold Command_new. destruct (String.eqb nm EmptyString); [discriminate|].
  destruct (alias_names _) as [e|names]; cbn; [discriminate|].
  unfold Context_new. cbn [p_clikit set_param].
  destruct (match p_clikit ps with Some s => _ | None => false end); [discriminate|].
  match goal with
  | |- context [if ?b then mix_options ?i ?o ?t else Ok ?t] =>
      destruct b; [destruct (mix_options i o t) as [e|this] eqn:Hmix|]
  end; cbn; try discriminate.
  - intros [= <-]. cbn. apply mix_options_frame in Hmix.
    destruct Hmix as (_ & _ & Hprops & _ & Hargs & Hparent). cbn in *.
    rewrite Hprops, Hargs, Hparent. eauto 10.
  - intros [= <-]. cbn. eauto 10.
Qed.



(** ** The second part of the [Extension] constructor *)

Lemma read_mk kd nm pr al ea os lk p k :
  read (mkContext kd nm pr al ea os lk p) k = default JUndefined (pr !! k).
Proof. reflexivity. Qed.




(** A cli-kit extension, or a stub for one that did not load. *)
Lemma finish_clikit env path r super :
  r_isCLIKitExtension r = true ->
  r_executable r = None ->
  exists x,
    Extension_finish env path r super = Ok x
    /\ kind x = KExtension
    /\ read x "isCLIKitExtension" = JBool true
    /\ read x "executable" = JNull
    /\ read x "banner" = param (r_params r) "banner"
    /\ parent x = parent super
    /\ forall k,
         k <> "isCLIKitExtension" -> k <> "banner" -> k <> "executable" ->
         read x k = read super k.
Proof.
  intros Hkit Hexe. unfold Extension_finish. rewrite Hkit, Hexe. flatten.
  eexists. split; [reflexivity|]. repeat split; try (by reads).
  intros k H1 H2 H3. rewrite !read_mk, !lookup_insert_ne by done. reflexivity.
Qed.




(** ** The first part of the [Extension] constructor *)





Lemma Extension_new_throw env params e :
  resolve env params = Throw e -> Extension_new env params = Throw e.
Proof. intros Hres. unfold Extension_new. by rewrite Hres. Qed.










(** ** Loading the extensions of a CLI *)

Lemma CLI_extension_step env this ext extName :
  root (CLI_extension env this ext extName) = root this
  /\ match Context_extension env (root this) (registry this) ext extName with
     | Throw e =>
         registry (CLI_extension env this ext extName) = registry this
         /\ warnings (CLI_extension env this ext extName) = (warnings this ++ [e])%list
         /\ warned (CLI_extension env this ext extName) = (warned this ++ [e])%list
     | Ok reg =>
         registry (CLI_extension env this ext extName) = reg
         /\ warnings (CLI_extension env this ext extName) = warnings this
         /\ warned (CLI_extension env this ext extName) = warned this
     end.
Proof.
  unfold CLI_extension.
  destruct (Context_extension _ _ _ _ _); cbn; done.
Qed.

Lemma CLI_extensions_calls env this extensions :
  CLI_extensions env this extensions =
  foldl (fun this '(ext, extName) => CLI_extension env this ext extName)
        this (extension_calls extensions).
Proof.
  destruct extensions as [[exts|entries]|]; cbn; [| |reflexivity].
  - revert this. induction exts as [|x rest IH]; intros this; cbn; [done|apply IH].
  - revert this. induction entries as [|[n x] rest IH]; intros this; cbn;
      [done|apply IH].
Qed.

Lemma load_all_calls env calls this :
  let this' := foldl (fun this '(ext, extName) => CLI_extension env this ext extName)
                     this calls in
  root this' = root this
  /\ warnings this' =
     (warnings this ++ load_failures env (root this) (registry this) calls)%list
  /\ warned this' =
     (warned this ++ load_failures env (root this) (registry this) calls)%list.
Proof.
  revert this. induction calls as [|[ext extName] rest IH]; intros this; cbn.
  - by rewrite !app_nil_r.
  - destruct (IH (CLI_extension env this ext extName)) as (Hroot & Hw & Hl).
    destruct (CLI_extension_step env this ext extName) as [Hr Hstep].
    cbn in *. rewrite Hroot, Hw, Hl, Hr.
    destruct (Context_extension env (root this) (registry this) ext extName)
      as [e|reg]; destruct Hstep as (-> & -> & ->);
      rewrite <- ?app_assoc; done.
Qed.

(** C4, as the code has it.  When a CLI is constructed with extensions,
    every failure to load one is caught, appended to the [warnings] of the
    root and passed to [warn], in the order of the failures, and the
    construction goes on with the next extension: the constructor's loop
    never fails, whatever [ignoreInvalidExtensions] is.  (That parameter
    decides inside the [Extension] constructor whether a cli-kit package
    that does not load gives a stub or an error; the error is caught
    here.) *)
Theorem CLI_extensions_collects_failures (env : Env) (this : CLI)
    (extensions : option Extensions) :
  let failures :=
    load_failures env (root this) (registry this) (extension_calls extensions) in
  root (CLI_extensions env this extensions) = root this
  /\ warnings (CLI_extensions env this extensions) = (warnings this ++ failures)%list
  /\ warned (CLI_extensions env this extensions) = (warned this ++ failures)%list.
Proof.
  cbn zeta. rewrite CLI_extensions_calls. apply load_all_calls.
Qed.

(** C4 as it is stated fails: [ignoreInvalidExtensions] is false and the
    extension does not load, so that the [Extension] constructor throws
    [INVALID_EXTENSION]; the constructor of the CLI catches the error and
    ends with the error among its warnings. *)
Lemma CLI_extensions_counterexample :
  let env := sample_disk sample_broken_export in
  let this := sample_strict_cli in
  let bad := ExtPath (JStr "ext/pkg") in
  get (root this) "ignoreInvalidExtensions" (JBool false) = JBool false
  /\ exists e,
       Context_extension env (root this) (registry this) bad JUndefined = Throw e
       /\ e_code e = Some INVALID_EXTENSION
       /\ CLI_extensions env this (Some (ExtArray [bad])) =
          mkCLI (root this) (registry this) [e] [e].
Proof.
  cbn zeta. split; [reflexivity|].
  eexists. split; [vm_compute; reflexivity|]. split; [reflexivity|].
  vm_compute. reflexivity.
Qed.

(** ** Selecting the command to run *)

Lemma wire_banner_returns run this cmd :
  banner_returns run -> exists banner, wire_banner run this cmd = Ok banner.
Proof.
  intros Hbanner. unfold wire_banner.
  destruct (truthy _); [|eauto].
  destruct (_ && _); [eauto|].
  destruct (js_or _ _) as [| | | | |f|]; cbn; eauto.
  destruct (Hbanner f) as [text ->]. cbn. eauto.
Qed.

(** What the [try] block does once the command is selected. *)
Lemma exec_try_dispatches run this pr cmd contexts :
  banner_returns run ->
  select_command this (pr_argv pr) (pr_contexts pr) = (Some cmd, contexts) ->
  dispatches this pr (exec_try run this pr) cmd contexts.
Proof.
  intros Hbanner Hsel. unfold exec_try. rewrite Hsel. cbn [fst snd].
  destruct (wire_banner_returns run this cmd Hbanner) as [banner ->].
  unfold dispatches.
  eexists _, _, banner. split; [|split; [|split]].
  - destruct (read cmd "action"); reflexivity.
  - done.
  - reflexivity.
  - cbn. by rewrite lookup_insert_eq.
Qed.

Lemma help_selected_priority this argv terminal :
  help_selected this argv terminal =
  (truthy (read (root this) "help") && truthy (argv_get argv "help")
   && negb (opaque_extension terminal)).
Proof.
  unfold help_selected, opaque_extension. f_equal.
  destruct terminal as [c|]; [|reflexivity].
  destruct (instanceof_Extension (kind c)), (truthy (read c "isCLIKitExtension"));
    reflexivity.
Qed.

(** C2.  For every parse result, [exec] selects the command to run by
    this priority: the built-in help command when help is enabled and the
    help flag was parsed, unless the terminal context is an extension that
    is no cli-kit extension; else the explicit command found by the
    parser; else the registered default command, when the parser found no
    command; else no command, and [exec] then returns the parse result
    and invokes no action.  The banner, when it is a function, returns;
    the help command is registered when help is selected; and the
    context the parser ended on, when it is no command, has no action. *)
Theorem exec_selects_by_priority (run : Run) (this : CLI) (pr : ParseResult) :
  banner_returns run ->
  let terminal := first_context (pr_contexts pr) in
  match priority this (pr_argv pr) terminal with
  | SelHelp =>
      forall help,
        commands (registry this) !! "help" = Some help ->
        dispatches this pr (exec_try run this pr) help (Some help :: pr_contexts pr)
  | SelExplicit cmd =>
      terminal = Some cmd /\
      dispatches this pr (exec_try run this pr) cmd (pr_contexts pr)
  | SelDefault =>
      exists cmd,
        commands_get (commands (registry this))
                     (read (root this) "defaultCommand") = Some cmd /\
        dispatches this pr (exec_try run this pr) cmd (Some cmd :: pr_contexts pr)
  | SelNone =>
      forall ctx,
        terminal = Some ctx ->
        is_function (read ctx "action") = false ->
        exists results heap banner,
          exec_try run this pr = Return results heap banner
          /\ results_of this pr results
          /\ heap !! res_contexts results = Some (pr_contexts pr)
  end.
Proof.
  intros Hbanner terminal. unfold priority.
  rewrite <- help_selected_priority.
  destruct (help_selected this (pr_argv pr) terminal) eqn:Hhelp.
  - (* help *)
    intros help Hreg. apply exec_try_dispatches; [exact Hbanner|].
    unfold select_command. fold terminal. rewrite Hhelp. cbn. by rewrite Hreg.
  - assert (Hdefault : default_selected this terminal =
                       negb match terminal with
                            | Some c => instanceof_Command (kind c)
                            | None => false
                            end && default_registered this).
    { unfold default_selected, default_registered. by rewrite andb_assoc. }
    assert (Hsel : select_command this (pr_argv pr) (pr_contexts pr) =
              if default_selected this terminal
              then (commands_get (commands (registry this))
                                 (read (root this) "defaultCommand"),
                    commands_get (commands (registry this))
                                 (read (root this) "defaultCommand")
                      :: pr_contexts pr)
              else (terminal, pr_contexts pr)).
    { unfold select_command. fold terminal. by rewrite Hhelp. }
    assert (Hregistered : default_registered this = true ->
              exists cmd, commands_get (commands (registry this))
                            (read (root this) "defaultCommand") = Some cmd).
    { unfold default_registered, commands_has, commands_get.
      destruct (read (root this) "defaultCommand"); cbn;
        rewrite ?andb_false_r; try discriminate.
      intros [_ Hin%bool_decide_eq_true]%andb_prop. destruct Hin as [cmd Hcmd].
      by exists cmd. }
    rewrite Hdefault in Hsel.
    destruct terminal as [c|] eqn:Hterm.
    + destruct (instanceof_Command (kind c)); cbn [negb andb] in Hsel.
      * split; [reflexivity|]. by apply exec_try_dispatches.
      * destruct (default_registered this) eqn:Hreg.
        -- destruct (Hregistered eq_refl) as [cmd Hcmd]. rewrite Hcmd in Hsel.
           exists cmd. split; [exact Hcmd|]. by apply exec_try_dispatches.
        -- intros ctx [= <-] Hnone.
           destruct (exec_try_dispatches run this pr c (pr_contexts pr) Hbanner Hsel)
             as (results & heap & banner & Hd & Hof & _ & Hheap).
           exists results, heap, banner. split; [|by split].
           rewrite Hd. by destruct (read c "action").
    + cbn [negb andb] in Hsel. destruct (default_registered this) eqn:Hreg.
      * destruct (Hregistered eq_refl) as [cmd Hcmd]. rewrite Hcmd in Hsel.
        exists cmd. split; [exact Hcmd|]. by apply exec_try_dispatches.
      * intros ctx [=].
Qed.

Lemma sample_banner_returns pr : banner_returns (sample_run pr).
Proof. intros f. by eexists. Qed.

(** [program --help]: the help command runs, ahead of the root. *)
Lemma exec_selects_by_priority_witness :
  dispatches sample_help_cli sample_parse_help
             (exec_try (sample_run sample_parse_help) sample_help_cli sample_parse_help)
             sample_help [Some sample_help; Some sample_help_root].
Proof.
  exact (exec_selects_by_priority (sample_run sample_parse_help) sample_help_cli
           sample_parse_help (sample_banner_returns sample_parse_help)
           sample_help eq_refl).
Defined.

(** The selection of [exec] is the one the priority describes. *)
Lemma select_command_selected this pr :
  select_command this (pr_argv pr) (pr_contexts pr) =
  (fst (selected this pr),
   if snd (selected this pr)
   then fst (selected this pr) :: pr_contexts pr
   else pr_contexts pr).
Proof.
  unfold select_command, selected, priority.
  rewrite <- help_selected_priority.
  destruct (help_selected _ _ _); [reflexivity|].
  unfold default_selected, default_registered.
  destruct (first_context (pr_contexts pr)) as [c|].
  - destruct (instanceof_Command (kind c)); cbn [negb andb]; [reflexivity|].
    by destruct (_ && _).
  - cbn [negb andb]. by destruct (_ && _).
Qed.

(** C9.  Whenever [exec] selects the help command or the default command
    in place of the context the parser ended on, it puts that command in
    front of the array [contexts]; otherwise the array is left as the
    parser returned it.  The array is the one [results.contexts] refers
    to, so the selected command is the first element of the [contexts] of
    the [results] record: of the record its action is called with when it
    has one, and of the record that [exec] returns when it has none.
    Only a banner that throws keeps [exec] from getting there. *)
Theorem exec_invokes_first_context (run : Run) (this : CLI) (pr : ParseResult)
    (cmd : Context) (instead : bool) :
  selected this pr = (Some cmd, instead) ->
  let contexts := if instead then Some cmd :: pr_contexts pr else pr_contexts pr in
  first_context contexts = Some cmd
  /\ match wire_banner run this cmd with
     | Throw e => exec_try run this pr = Raise e
     | Ok banner =>
         exists results heap,
           results_of this pr results
           /\ heap !! res_contexts results = Some contexts
           /\ exec_try run this pr =
              match read cmd "action" with
              | JFun action => Invoke cmd action results heap banner
              | _ => Return results heap banner
              end
           /\ (parse run = Ok pr ->
               (truthy (read (root this) "nodeVersion")
                && negb (satisfies run (js_String (read (root this) "nodeVersion")))
                || negb (satisfies run (clikitNodeVersion run))) = false ->
               CLI_exec run this =
               match read cmd "action" with
               | JFun action =>
                   match call_action run action (ArgResults results heap) with
                   | Ok v => Ok (ActionValue v)
                   | Throw err => exec_catch run this err
                   end
               | _ => Ok (Returned results heap)
               end)
     end.
Proof.
  intros Hsel. cbn zeta.
  pose proof (select_command_selected this pr) as Hselect.
  rewrite Hsel in Hselect. cbn [fst snd] in Hselect.
  split.
  { destruct instead; [reflexivity|].
    unfold selected in Hsel.
    destruct (priority _ _ _) as [|c| |] eqn:Hprio; try (by inversion Hsel).
    injection Hsel as <-. unfold priority in Hprio.
    destruct (_ && _); [discriminate|].
    destruct (first_context (pr_contexts pr)) as [c'|].
    - destruct (instanceof_Command (kind c'));
        [by injection Hprio as -> | by destruct (default_registered this)].
    - by destruct (default_registered this). }
  set (results := mkResults (pr_args pr) (pr_argv pr) contexts_loc (pr_unknown pr)
                            (warnings this) (Some cmd)).
  set (heap := <[contexts_loc := if instead then Some cmd :: pr_contexts pr
                                 else pr_contexts pr]>
                 ({[ contexts_loc := pr_contexts pr ]} : Heap)).
  assert (Htry : exec_try run this pr =
            match wire_banner run this cmd with
            | Throw e => Raise e
            | Ok banner =>
                match read cmd "action" with
                | JFun action => Invoke cmd action results heap banner
                | _ => Return results heap banner
                end
            end).
  { unfold exec_try. rewrite Hselect. cbn [fst snd].
    destruct (wire_banner run this cmd); [reflexivity|].
    destruct (read cmd "action"); reflexivity. }
  destruct (wire_banner run this cmd) as [e|banner]; [exact Htry|].
  exists results, heap.
  split; [done|]. split; [by apply lookup_insert_eq|]. split; [exact Htry|].
  intros Hparse Hgate. unfold CLI_exec. rewrite Hgate, Hparse, Htry.
  destruct (read cmd "action"); reflexivity.
Qed.

(** [program --help]: the help command is selected instead of the root,
    and is put in front of the root in the contexts of the record its
    action is called with. *)
Lemma exec_invokes_first_context_witness :
  exists results heap,
    exec_try (sample_run sample_parse_help) sample_help_cli sample_parse_help
      = Invoke sample_help (FnUser 0) results heap None
    /\ heap !! res_contexts results = Some [Some sample_help; Some sample_help_root]
    /\ CLI_exec (sample_run sample_parse_help) sample_help_cli
       = Ok (ActionValue JUndefined).
Proof.
  destruct (exec_invokes_first_context (sample_run sample_parse_help)
              sample_help_cli sample_parse_help sample_help true eq_refl)
    as [_ Hexec].
  change (wire_banner (sample_run sample_parse_help) sample_help_cli sample_help)
    with (Ok None : Result (option string)) in Hexec.
  destruct Hexec as (results & heap & _ & Hheap & Htry & Hcall).
  exists results, heap. split; [exact Htry|]. split; [exact Hheap|].
  exact (Hcall eq_refl eq_refl).
Defined.

(** ** A default command that is not registered *)

Lemma exec_try_raises run this pr e :
  exec_try run this pr = Raise e ->
  e_code e = None \/ exists f, call_banner run f = Throw e.
Proof.
  intros Hraise. unfold exec_try in Hraise.
  destruct (fst (select_command _ _ _)) as [c|].
  - unfold wire_banner in Hraise.
    destruct (truthy _); [|by destruct (read c "action")].
    destruct (_ && _); [by destruct (read c "action")|].
    destruct (js_or _ _) as [| | | | |f|]; cbn in Hraise;
      try (by destruct (read c "action")).
    destruct (call_banner run f) as [e'|text] eqn:Hcall; cbn in Hraise.
    + injection Hraise as ->. right. by exists f.
    + by destruct (read c "action").
  - injection Hraise as <-. by left.
Qed.

Lemma exec_catch_throws run this err e :
  exec_catch run this err = Throw e ->
  e = err \/ e_code e = None \/ exists f arg, call_action run f arg = Throw e.
Proof.
  unfold exec_catch.
  match goal with
  | |- context [match ?h with Some _ => _ | None => Throw err end] =>
      destruct h as [help|]
  end.
  - destruct (read help "action") as [| | | | |f|];
      try (intros [= <-]; right; by left).
    destruct (call_action run f _) as [e'|v] eqn:Hcall; cbn; [|discriminate].
    intros [= ->]. right. right. eauto.
  - intros [= ->]. by left.
Qed.

(** C8, as the code has it.  When [defaultCommand] names no registered
    command, [exec] does not fail for it: the default is never selected;
    without the help flag the command stays the context the parser ended
    on, whose action is invoked if it has one and the parse result
    returned otherwise.  [exec] throws [DEFAULT_COMMAND_NOT_FOUND] only
    if the parser or a function of the consumer throws it. *)
Theorem unregistered_default_is_skipped (run : Run) (this : CLI) (pr : ParseResult) :
  commands_has (commands (registry this)) (read (root this) "defaultCommand") = false ->
  let terminal := first_context (pr_contexts pr) in
  default_selected this terminal = false
  /\ (help_selected this (pr_argv pr) terminal = false ->
      select_command this (pr_argv pr) (pr_contexts pr) = (terminal, pr_contexts pr)
      /\ forall ctx,
           terminal = Some ctx ->
           banner_returns run ->
           dispatches this pr (exec_try run this pr) ctx (pr_contexts pr))
  /\ (forall e,
        CLI_exec run this = Throw e ->
        e_code e = Some DEFAULT_COMMAND_NOT_FOUND ->
        parse run = Throw e
        \/ (exists f, call_banner run f = Throw e)
        \/ (exists f arg, call_action run f arg = Throw e)).
Proof.
  intros Hlost terminal.
  assert (Hdefault : default_selected this terminal = false).
  { unfold default_selected. rewrite Hlost. by rewrite andb_false_r. }
  split; [exact Hdefault|]. split.
  - intros Hhelp.
    assert (Hsel : select_command this (pr_argv pr) (pr_contexts pr)
                   = (terminal, pr_contexts pr)).
    { unfold select_command. fold terminal. by rewrite Hhelp, Hdefault. }
    split; [exact Hsel|].
    intros ctx Hctx Hbanner. apply exec_try_dispatches; [exact Hbanner|].
    by rewrite Hsel, Hctx.
  - intros e Hexec Hcode. unfold CLI_exec in Hexec.
    destruct (_ || _); [injection Hexec as <-; discriminate Hcode|].
    assert (Hcatch : forall err,
              (parse run = Throw err
               \/ (exists f, call_banner run f = Throw err)
               \/ (exists f arg, call_action run f arg = Throw err)
               \/ e_code err = None) ->
              exec_catch run this err = Throw e ->
              parse run = Throw e
              \/ (exists f, call_banner run f = Throw e)
              \/ (exists f arg, call_action run f arg = Throw e)).
    { intros err Herr Hthrow.
      apply exec_catch_throws in Hthrow as [-> | [Hnone | Haction]].
      - destruct Herr as [? | [? | [? | Hnone]]]; eauto.
        rewrite Hnone in Hcode. discriminate Hcode.
      - rewrite Hnone in Hcode. discriminate Hcode.
      - eauto. }
    destruct (parse run) as [err|pr'] eqn:Hparse.
    + apply (Hcatch err); [by left | exact Hexec].
    + destruct (exec_try run this pr') as [c f r h b | r h b | err] eqn:Htry.
      * destruct (call_action run f (ArgResults r h)) as [err|v] eqn:Hcall;
          [|discriminate Hexec].
        apply (Hcatch err); [|exact Hexec]. right. right. left. eauto.
      * discriminate Hexec.
      * apply (Hcatch err); [|exact Hexec].
        apply exec_try_raises in Htry as [Hnone | Hb]; eauto.
Qed.

Lemma unregistered_default_is_skipped_witness :
  select_command sample_lost_cli ∅ [Some sample_lost_root]
  = (Some sample_lost_root, [Some sample_lost_root]).
Proof.
  destruct (unregistered_default_is_skipped (sample_run sample_parse_lost)
              sample_lost_cli sample_parse_lost eq_refl) as (_ & Hsel & _).
  exact (proj1 (Hsel eq_refl)).
Defined.

(** C8 as it is stated fails: [defaultCommand] is [start], no command is
    registered, and [exec] returns the parse result. *)
Lemma unregistered_default_counterexample :
  let this := sample_lost_cli in
  let run := sample_run sample_parse_lost in
  read (root this) "defaultCommand" = JStr "start"
  /\ commands (registry this) !! "start" = None
  /\ (exists results heap, CLI_exec run this = Ok (Returned results heap))
  /\ ~ (exists e, CLI_exec run this = Throw e
                  /\ e_code e = Some DEFAULT_COMMAND_NOT_FOUND).
Proof.
  cbn zeta. split; [reflexivity|]. split; [reflexivity|].
  assert (Hexec : exists results heap,
            CLI_exec (sample_run sample_parse_lost) sample_lost_cli
            = Ok (Returned results heap)).
  { eexists _, _. vm_compute. reflexivity. }
  split; [exact Hexec|].
  destruct Hexec as (results & heap & Hexec).
  intros (e & He & _). congruence.
Qed.

(** ** Mixing a context into a new one *)

Lemma copy_props_lookup params k :
  copy_props params !! k =
  if copied (clikit_has params "Context") k then p_props params !! k else None.
Proof.
  unfold copy_props. destruct (copied _ k) eqn:Hc.
  - destruct (p_props params !! k) as [v|] eqn:Hk.
    + apply map_lookup_filter_Some. by split.
    + apply map_lookup_filter_None. by left.
  - apply map_lookup_filter_None. right. intros v _. cbn. by rewrite Hc.
Qed.

(** No reserved property is copied. *)
Lemma reserved_not_copied params k :
  k ∈ reserved -> copy_props params !! k = None.
Proof.
  intros Hk. rewrite copy_props_lookup.
  assert (Hc : forall b, copied b k = false).
  { intros b. unfold reserved in Hk.
    repeat (apply elem_of_cons in Hk as [-> | Hk]; [reflexivity|]).
    by apply elem_of_nil in Hk. }
  by rewrite Hc.
Qed.

(** A property whose name the regular expression does not match is
    copied. *)
Lemma unmatched_copied params k :
  propIgnoreRegExp_test k = false ->
  copy_props params !! k = p_props params !! k.
Proof.
  intros Hk. rewrite copy_props_lookup. unfold copied. by rewrite Hk.
Qed.

(** The regular expression matches more than the reserved names: every
    name that contains [args], for one. *)
Lemma args_matched k : includes "args" k = true -> propIgnoreRegExp_test k = true.
Proof.
  intros Hk. unfold propIgnoreRegExp_test. rewrite Hk.
  by rewrite !orb_true_r.
Qed.

(** C6, where the code departs from it.  [kwargs] is not one of the
    reserved properties, yet a context constructed from parameters that
    have it does not have it: the regular expression matches every name
    that contains [args].  [title], which it does not match, is copied. *)
Theorem Context_new_drops_kwargs :
  ("kwargs" ∉ reserved)
  /\ param sample_kwargs_params "kwargs" = JNum 1
  /\ exists this,
       Context_new sample_kwargs_params = Ok this
       /\ read this "title" = JStr "Tools"
       /\ read this "kwargs" = JUndefined.
Proof.
  split.
  - unfold reserved. rewrite !elem_of_cons, elem_of_nil.
    intros H. repeat (destruct H as [H | H]; [discriminate H|]). exact H.
  - split; [reflexivity|]. eexists. split; [reflexivity|]. split; reflexivity.
Qed.

(** The options of a mixed CLI: [version] is always copied, any other
    option unless an ancestor declares an option of its name. *)
Lemma found_in_chain p optName :
  found_in p optName = true <->
  exists a, a ∈ chain p /\ declares a optName = true.
Proof.
  induction p as [p Hp | p q Hp IH] using Context_chain_ind.
  - assert (Hchain : chain p = [p]) by (destruct p; cbn in *; by subst).
    assert (Hfound : found_in p optName = declares p optName || false)
      by (destruct p; cbn in *; by subst).
    rewrite Hchain, Hfound, orb_false_r. split.
    + intros H. exists p. split; [by left | exact H].
    + intros (a & Ha & Hd). apply list_elem_of_singleton in Ha. by subst.
  - assert (Hchain : chain p = p :: chain q) by (destruct p; cbn in *; by subst).
    assert (Hfound : found_in p optName = declares p optName || found_in q optName)
      by (destruct p; cbn in *; by subst).
    rewrite Hchain, Hfound. split.
    + intros [H | H]%orb_prop.
      * exists p. split; [by left | exact H].
      * apply IH in H as (a & Ha & Hd). exists a. split; [by right | exact Hd].
    + intros (a & Ha & Hd). apply elem_of_cons in Ha as [-> | Ha].
      * by rewrite Hd.
      * rewrite (proj2 IH); [by rewrite orb_true_r | eauto].
Qed.

Lemma mix_add_version isCLI this opt :
  opt_name opt = "version" -> mix_add isCLI this opt = true.
Proof. intros Hv. unfold mix_add. rewrite Hv. cbn. by rewrite andb_false_r. Qed.

Lemma mix_add_from_CLI this opt p :
  opt_name opt <> "version" ->
  parent this = Some p ->
  mix_add true this opt = false <->
  exists a, a ∈ chain p /\ declares a (opt_name opt) = true.
Proof.
  intros Hv Hp. unfold mix_add. rewrite Hp.
  apply String.eqb_neq in Hv. rewrite Hv. cbn.
  rewrite <- found_in_chain. by destruct (found_in p (opt_name opt)).
Qed.

Lemma mix_add_from_Command this opt : mix_add false this opt = true.
Proof. reflexivity. Qed.

(* ===================================================================== *)
(** * Further properties *)
(* ===================================================================== *)

(** ** Scoped reads that agree *)

Lemma one_defined_same (vs : list JsValue) :
  length (List.filter is_defined vs) <= 1 ->
  topmost_defined vs = bottommost_defined vs.
Proof.
  induction vs as [|v rest IH]; cbn; [reflexivity|].
  destruct (is_defined v) eqn:Hv; cbn.
  - intros Hlen.
    assert (Hnone : List.filter is_defined rest = []).
    { destruct (List.filter is_defined rest); [reflexivity | cbn in Hlen; lia]. }
    assert (Hall : Forall (fun w => w = JUndefined) rest).
    { apply Forall_forall. intros w Hw.
      destruct (is_defined w) eqn:Hd; [|by destruct w].
      assert (Hin : In w (List.filter is_defined rest)).
      { apply List.filter_In. split; [by apply list_elem_of_In | exact Hd]. }
      rewrite Hnone in Hin. destruct Hin. }
    by rewrite (proj2 (topmost_defined_None rest) Hall).
  - intros Hlen. rewrite (IH Hlen).
    by destruct (bottommost_defined rest).
Qed.

(** X1.  [get] and [prop] differ only when two contexts of the chain
    declare the property: when at most one context of the chain has a
    value for it that is not [undefined], both return the same thing. *)
Theorem get_prop_agree (c : Context) (k : string) (d : JsValue) :
  length (List.filter is_defined (declared c k)) <= 1 ->
  get c k d = prop c k d.
Proof.
  intros Hone.
  destruct (get_as_topmost c k) as [-> _].
  destruct (prop_as_bottommost c k) as [-> _].
  by rewrite (one_defined_same _ Hone).
Qed.

Lemma get_prop_agree_witness :
  get sample_ls "terminal" JNull = prop sample_ls "terminal" JNull.
Proof. apply get_prop_agree. vm_compute. lia. Defined.

(** ** The commands of a context stay consistent *)

Lemma registerCommand_Ok reg cmd reg' :
  registerCommand reg cmd = Ok reg' ->
  commands reg !! name cmd = None
  /\ commands reg' = <[name cmd := cmd]> (commands reg)
  /\ forall k,
       lookup_commands reg' !! k =
       if bool_decide (k ∈ map fst (aliases cmd))
          && negb (bool_decide (is_Some (<[name cmd := cmd]> (commands reg) !! k)))
       then Some cmd
       else <[name cmd := cmd]> (lookup_commands reg) !! k.
Proof.
  unfold registerCommand. rewrite commands_has_str.
  case_bool_decide as Hhas; [discriminate|].
  intros [= <-]. cbn [commands lookup_commands].
  split; [|split; [reflexivity|]].
  - destruct (commands reg !! name cmd) eqn:Hc; [|reflexivity].
    destruct Hhas. by eexists.
  - intros k.
    exact (alias_loop_lookup (<[name cmd := cmd]> (commands reg)) cmd
             (map fst (aliases cmd)) (<[name cmd := cmd]> (lookup_commands reg)) k).
Qed.

(** X2.  [registerCommand] keeps the commands of a context consistent:
    if every listed command is listed under its own name and found under
    it in the lookup, and every entry of the lookup is a listed command,
    then the same holds once a further command is registered. *)
Theorem registerCommand_keeps_consistent (reg : Registry) (cmd : Context)
    (reg' : Registry) :
  registry_consistent reg ->
  registerCommand reg cmd = Ok reg' ->
  registry_consistent reg'.
Proof.
  intros (Hname & Hfound & Hlisted) Hreg.
  apply registerCommand_Ok in Hreg as (Hfresh & Hcmds & Hlookup).
  unfold registry_consistent. rewrite Hcmds. split; [|split].
  - intros n c. rewrite lookup_insert. case_decide as Hn.
    + by intros [= <-].
    + apply Hname.
  - intros n c Hc. rewrite Hlookup.
    rewrite (bool_decide_eq_true_2 (is_Some _)) by (by eexists).
    rewrite andb_false_r. revert Hc. rewrite !lookup_insert.
    case_decide; [done | apply Hfound].
  - intros k c. rewrite Hlookup.
    destruct (_ && _).
    + intros [= <-]. by rewrite lookup_insert_eq.
    + rewrite lookup_insert. case_decide as Hk.
      * intros [= <-]. by rewrite lookup_insert_eq.
      * intros Hc. pose proof (Hlisted k c Hc) as Hreg.
        rewrite lookup_insert_ne; [exact Hreg|].
        intros Heq. rewrite Heq, Hreg in Hfresh. discriminate.
Qed.

Lemma registry_empty_consistent : registry_consistent (mkRegistry ∅ ∅).
Proof. repeat split; intros ? ?; cbn; by rewrite lookup_empty. Qed.

Lemma registerCommand_keeps_consistent_witness :
  exists reg,
    registerCommand (mkRegistry ∅ ∅)
      (sample_command "make" [("build", true); ("mk", true)]) = Ok reg
    /\ registry_consistent reg.
Proof.
  destruct (registerCommand (mkRegistry ∅ ∅)
              (sample_command "make" [("build", true); ("mk", true)]))
    as [e|reg] eqn:Hreg; [vm_compute in Hreg; discriminate|].
  exists reg. split; [reflexivity|].
  exact (registerCommand_keeps_consistent _ _ _ registry_empty_consistent Hreg).
Defined.

(** X3.  A command that is registered adds one command, and touches the
    lookup only under its name and its aliases: every other command and
    every other key of the lookup stay as they were. *)
Theorem registerCommand_frame (reg : Registry) (cmd : Context) (reg' : Registry) :
  registerCommand reg cmd = Ok reg' ->
  size (commands reg') = S (size (commands reg))
  /\ (forall n, n <> name cmd -> commands reg' !! n = commands reg !! n)
  /\ (forall k, k <> name cmd -> k ∉ map fst (aliases cmd) ->
                lookup_commands reg' !! k = lookup_commands reg !! k).
Proof.
  intros Hreg.
  apply registerCommand_Ok in Hreg as (Hfresh & Hcmds & Hlookup).
  rewrite Hcmds. split; [|split].
  - by apply map_size_insert_None.
  - intros n Hn. by rewrite lookup_insert_ne.
  - intros k Hk Hal. rewrite Hlookup.
    rewrite (bool_decide_eq_false_2 (k ∈ _)) by exact Hal.
    cbn. by rewrite lookup_insert_ne.
Qed.

Lemma registerCommand_frame_witness :
  exists reg,
    registerCommand (mkRegistry {[ "build" := sample_build ]}
                                {[ "build" := sample_build; "b" := sample_build ]})
                    (sample_command "make" [("mk", true)]) = Ok reg
    /\ size (commands reg) = 2
    /\ lookup_commands reg !! "b" = Some sample_build.
Proof.
  destruct (registerCommand (mkRegistry {[ "build" := sample_build ]}
                                        {[ "build" := sample_build; "b" := sample_build ]})
                            (sample_command "make" [("mk", true)]))
    as [e|reg] eqn:Hreg; [vm_compute in Hreg; discriminate|].
  destruct (registerCommand_frame _ _ _ Hreg) as (Hsize & _ & Hlookup).
  exists reg. split; [reflexivity|]. split; [exact Hsize|].
  rewrite (Hlookup "b"); [reflexivity | discriminate |].
  cbn. intros Hin%list_elem_of_singleton. discriminate.
Defined.

(** ** Extensions of a context that is no CLI *)

Lemma extensions_throw env this calls e :
  foldl (fun acc '(ext, extName) =>
           let! reg := acc in Context_extension env this reg ext extName)
        (Throw e) calls = Throw e.
Proof. induction calls as [|[ext nm] rest IH]; cbn; [reflexivity | exact IH]. Qed.

Lemma Context_extensions_calls env this reg extensions :
  Context_extensions env this reg extensions =
  foldl (fun acc '(ext, extName) =>
           let! reg := acc in Context_extension env this reg ext extName)
        (Ok reg) (extension_calls extensions).
Proof.
  destruct extensions as [[exts|entries]|]; cbn; [| |reflexivity].
  - generalize (Ok reg : Result Registry) as acc.
    induction exts as [|x rest IH]; intros acc; cbn; [done|apply IH].
  - generalize (Ok reg : Result Registry) as acc.
    induction entries as [|[n x] rest IH]; intros acc; cbn; [done|apply IH].
Qed.

Lemma extensions_against_CLI env this calls reg w wd :
  let cli := foldl (fun this '(ext, extName) => CLI_extension env this ext extName)
                   (mkCLI this reg w wd) calls in
  match foldl (fun acc '(ext, extName) =>
                 let! reg := acc in Context_extension env this reg ext extName)
              (Ok reg) calls with
  | Ok reg' => warnings cli = w /\ registry cli = reg'
  | Throw e => exists rest, warnings cli = (w ++ e :: rest)%list
  end.
Proof.
  revert reg. induction calls as [|[ext nm] rest IH]; intros reg.
  - done.
  - cbn [foldl]. cbn [bind].
    assert (Hstep : CLI_extension env (mkCLI this reg w wd) ext nm =
              match Context_extension env this reg ext nm with
              | Ok reg1 => mkCLI this reg1 w wd
              | Throw e => mkCLI this reg (w ++ [e])%list (wd ++ [e])%list
              end) by reflexivity.
    rewrite Hstep. clear Hstep.
    destruct (Context_extension env this reg ext nm) as [e|reg1].
    + rewrite extensions_throw. cbn zeta.
      destruct (load_all_calls env rest (mkCLI this reg (w ++ [e])%list (wd ++ [e])%list))
        as (_ & Hw & _).
      cbn zeta in Hw. rewrite Hw. cbn [warnings]. rewrite <- app_assoc. eauto.
    + apply IH.
Qed.

(** X4.  The loop of the [Context] constructor over its extensions has
    no [try]: it ends with the error of the first extension that fails to
    load, which is the first warning the loop of the CLI constructor
    collects for the same extensions; and when it ends without an error,
    the CLI's loop collects no warning and registers the same commands. *)
Theorem Context_extensions_stops_at_first_failure (env : Env) (this : Context)
    (reg : Registry) (extensions : option Extensions) :
  let cli := CLI_extensions env (mkCLI this reg [] []) extensions in
  match Context_extensions env this reg extensions with
  | Ok reg' => warnings cli = [] /\ registry cli = reg'
  | Throw e => head (warnings cli) = Some e
  end.
Proof.
  cbn zeta. rewrite CLI_extensions_calls, Context_extensions_calls.
  pose proof (extensions_against_CLI env this (extension_calls extensions) reg [] [])
    as H.
  cbn zeta in H.
  destruct (foldl _ (Ok reg) _) as [e|reg'].
  - destruct H as [rest ->]. reflexivity.
  - exact H.
Qed.

(** ** What the [Extension] constructor keeps *)



Lemma Extension_finish_frame env path r super x :
  Extension_finish env path r super = Ok x ->
  kind x = KExtension /\ name x = name super /\ aliases x = aliases super
  /\ parent x = parent super.
Proof.
  unfold Extension_finish.
  destruct (r_isCLIKitExtension r); cbn [negb bind].
  - intros [= <-]. done.
  - destruct (Context_option _ version_override) as [e|this1] eqn:Hopt; cbn [bind];
      [discriminate|].
    apply Context_option_frame in Hopt as (Hk & Hn & _ & Ha & _ & Hp).
    cbn in Hk, Hn, Ha, Hp.
    destruct (r_pkg r).
    + intros [= <-]. done.
    + destruct (truthy _); [intros [= <-]; done|].
      destruct (truthy _); [|discriminate].
      intros [= <-]. done.
Qed.

Lemma Extension_new_inv env params x :
  Extension_new env params = Ok x ->
  exists path r super,
    param params "extensionPath" = JStr path
    /\ path <> EmptyString
    /\ resolve env params = Ok r
    /\ Command_new (extension_name env path r) (r_params r) = Ok super
    /\ Extension_finish env path r super = Ok x.
Proof.
  unfold Extension_new.
  destruct (resolve env params) as [e|r] eqn:Hres; cbn [bind]; [discriminate|].
  destruct (Command_new _ _) as [e|super] eqn:Hnew; cbn [bind]; [discriminate|].
  intros Hfin.
  assert (Hpath : exists path, param params "extensionPath" = JStr path
                               /\ path <> EmptyString).
  { unfold resolve in Hres.
    destruct (param params "extensionPath") as [| | | |path| |]; try discriminate.
    exists path. split; [reflexivity|].
    intros ->. discriminate. }
  destruct Hpath as (path & Hpath & Hne).
  rewrite Hpath in Hnew, Hfin. cbn [js_String] in Hnew, Hfin.
  by exists path, r, super.
Qed.




(** ** The aliases of an extension *)

Lemma bin_loop_spec (primary : JsValue) (bin : list (string * JsValue))
    (als : list JsValue) :
  let out :=
    foldl (fun als '(binName, target) =>
             if bool_decide (target = primary) && negb (js_includes als (JStr binName))
             then (als ++ [JStr binName])%list
             else als)
          als bin in
  als `prefix_of` out
  /\ (NoDup als -> NoDup out)
  /\ forall a, a ∈ out <->
               a ∈ als \/ exists binName, a = JStr binName /\ (binName, primary) ∈ bin.
Proof.
  revert als. induction bin as [|[binName target] rest IH]; intros als; cbn zeta.
  - cbn. split; [done|]. split; [done|].
    intros a. split; [by left|]. intros [H|(b & _ & H)]; [done|].
    by apply elem_of_nil in H.
  - cbn [foldl].
    set (als1 := if bool_decide (target = primary)
                    && negb (js_includes als (JStr binName))
                 then (als ++ [JStr binName])%list else als).
    destruct (IH als1) as (Hpre & Hnd & Hin).
    assert (H1 : als `prefix_of` als1
                 /\ (NoDup als -> NoDup als1)
                 /\ forall a, a ∈ als1 <->
                      a ∈ als \/ (a = JStr binName /\ target = primary)).
    { subst als1. unfold js_includes.
      case_bool_decide as Ht; cbn [andb].
      - case_bool_decide as Hi; cbn [negb].
        + split; [done|]. split; [done|]. intros a. split; [by left|].
          intros [H | [-> _]]; done.
        + split; [by apply prefix_app_r|]. split.
          * intros Hnd0. apply NoDup_app. split; [done|]. split.
            -- intros y Hy Hy'. apply list_elem_of_singleton in Hy'. by subst.
            -- apply NoDup_singleton.
          * intros a. rewrite elem_of_app, list_elem_of_singleton.
            split; [intros [H | ->]; [by left | by right] | intros [H | [-> _]]; [by left | by right]].
      - split; [done|]. split; [done|]. intros a. split; [by left|].
        intros [H|[_ H]]; done. }
    destruct H1 as (Hpre1 & Hnd1 & Hin1).
    split; [by etrans|]. split; [by intros H; apply Hnd, Hnd1|].
    intros a. rewrite Hin, Hin1. split.
    + intros [[H|[-> ->]]|(b & -> & Hb)].
      * by left.
      * right. exists binName. split; [done | left].
      * right. exists b. split; [done | by right].
    + intros [H|(b & -> & Hb)]; [by left; left|].
      apply elem_of_cons in Hb as [[= -> ->]|Hb].
      * left. by right.
      * right. by exists b.
Qed.

(** X6.  The aliases an extension takes from its package: the aliases of
    the manifest come first and stay as they are; nothing is entered
    twice; and a value is among the aliases exactly when it is an alias
    of the manifest, or the name the extension was given (when that is
    not the resolved name), or the name of a [bin] entry with the same
    target as the entry called after the package. *)
Theorem extension_aliases_exact (json : PackageJson) (paramsName : JsValue)
    (nm : string) :
  let manifest := default [] (pj_aliases json) in
  let bin := default [] (pj_bin json) in
  let primary :=
    default JUndefined
      (snd <$> List.find (fun '(k, _) => String.eqb k (js_String (pj_name json))) bin) in
  manifest `prefix_of` extension_aliases json paramsName nm
  /\ (NoDup manifest -> NoDup (extension_aliases json paramsName nm))
  /\ forall a,
       a ∈ extension_aliases json paramsName nm <->
       a ∈ manifest
       \/ (a = paramsName /\ truthy paramsName = true /\ paramsName <> JStr nm)
       \/ exists binName, a = JStr binName /\ (binName, primary) ∈ bin.
Proof.
  cbn zeta. unfold extension_aliases.
  set (manifest := default [] (pj_aliases json)).
  set (als1 := if truthy paramsName && negb (bool_decide (paramsName = JStr nm))
                  && negb (js_includes manifest paramsName)
               then (manifest ++ [paramsName])%list else manifest).
  assert (H1 : manifest `prefix_of` als1
               /\ (NoDup manifest -> NoDup als1)
               /\ forall a, a ∈ als1 <->
                    a ∈ manifest
                    \/ (a = paramsName /\ truthy paramsName = true
                        /\ paramsName <> JStr nm)).
  { subst als1. unfold js_includes.
    destruct (truthy paramsName); cbn [andb];
      [|split; [done|]; split; [done|]; intros a; split; [by left|];
        intros [H|(_ & H & _)]; done].
    case_bool_decide as Hn; cbn [negb andb];
      [split; [done|]; split; [done|]; intros a; split; [by left|];
       intros [H|(_ & _ & H)]; done|].
    case_bool_decide as Hi; cbn [negb].
    - split; [done|]. split; [done|]. intros a. split; [by left|].
      intros [H|(-> & _)]; done.
    - split; [by apply prefix_app_r|]. split.
      + intros Hnd. apply NoDup_app. split; [done|]. split.
        * intros y Hy Hy'. apply list_elem_of_singleton in Hy'. by subst.
        * apply NoDup_singleton.
      + intros a. rewrite elem_of_app, list_elem_of_singleton.
        split; [intros [H | ->]; [by left | by right] | intros [H | [-> _]]; [by left | by right]]. }
  destruct H1 as (Hpre1 & Hnd1 & Hin1).
  destruct (pj_bin json) as [bin|]; cbn [from_option id].
  - match goal with
    | |- context [foldl _ als1 bin] =>
        pose proof (bin_loop_spec
                      (default JUndefined
                         (snd <$> List.find
                            (fun '(k, _) => String.eqb k (js_String (pj_name json)))
                            bin))
                      bin als1) as (Hpre & Hnd & Hin)
    end.
    split; [by etrans|]. split; [by intros H; apply Hnd, Hnd1|].
    intros a. rewrite Hin, Hin1. tauto.
  - split; [done|]. split; [done|]. intros a. rewrite Hin1.
    split; [tauto|]. intros [H|[H|(b & _ & H)]]; [tauto|tauto|].
    by apply elem_of_nil in H.
Qed.

(** ** The name of an extension *)

Lemma resolve_name env params path r :
  resolve env params = Ok r ->
  param params "extensionPath" = JStr path ->
  let explicit := trim (js_String (js_or (param params "name") (JStr EmptyString))) in
  let from_package :=
    match which_sync env path, existsSync env path, findPackage env path with
    | None, true, Ok pkg =>
        trim (js_String (js_or (pj_name (pkg_json pkg)) (JStr EmptyString)))
    | _, _, _ => EmptyString
    end in
  r_name r = if String.eqb explicit EmptyString then from_package else explicit.
Proof.
  intros Hres Hpath. cbn zeta. unfold resolve in Hres. rewrite Hpath in Hres.
  destruct (String.eqb path EmptyString); [discriminate|].
  destruct (which_sync env path).
  { injection Hres as <-. cbn. by destruct (String.eqb _ _) eqn:E; [apply String.eqb_eq in E|]. }
  destruct (existsSync env path).
  2:{ injection Hres as <-. cbn.
      by destruct (String.eqb _ _) eqn:E; [apply String.eqb_eq in E|]. }
  destruct (findPackage env path) as [e|pkg]; cbn [bind] in Hres; [discriminate|].
  destruct (pkg_main pkg) as [main|]; [|discriminate].
  destruct (String.eqb main EmptyString); [discriminate|].
  destruct (if pkg_clikit pkg then _ else _) as [e|loaded]; cbn [bind] in Hres;
    [discriminate|].
  injection Hres as <-. reflexivity.
Qed.

(** X7.  The name of an extension: the name it was given, trimmed; when
    there is none and the path is a package on disk (and no executable on
    the [PATH]), the name of the package, trimmed; and the base name of
    the path otherwise. *)
Theorem Extension_name_precedence (env : Env) (params : Params) (x : Context)
    (path : string) :
  Extension_new env params = Ok x ->
  param params "extensionPath" = JStr path ->
  let explicit := trim (js_String (js_or (param params "name") (JStr EmptyString))) in
  let from_package :=
    match which_sync env path, existsSync env path, findPackage env path with
    | None, true, Ok pkg =>
        trim (js_String (js_or (pj_name (pkg_json pkg)) (JStr EmptyString)))
    | _, _, _ => EmptyString
    end in
  name x = if negb (String.eqb explicit EmptyString) then explicit
           else if negb (String.eqb from_package EmptyString) then from_package
           else basename env path.
Proof.
  intros Hnew Hpath. cbn zeta.
  apply Extension_new_inv in Hnew
    as (path' & r & super & Hpath' & _ & Hres & Hsuper & Hfin).
  assert (path' = path) as -> by congruence.
  apply Extension_finish_frame in Hfin as (_ & -> & _).
  apply Command_new_frame in Hsuper as (_ & -> & _).
  unfold extension_name. rewrite (resolve_name _ _ _ _ Hres Hpath).
  destruct (String.eqb (trim _) EmptyString) eqn:He; cbn [negb].
  - clear He. destruct (String.eqb _ EmptyString); reflexivity.
  - rewrite He. reflexivity.
Qed.

Lemma Extension_name_precedence_witness :
  exists x,
    Extension_new (sample_disk sample_plain_export)
                  (mkParams None {[ "extensionPath" := JStr "ext/pkg" ]} [] [] None)
    = Ok x
    /\ name x = "pkg".
Proof.
  eexists. split; [vm_compute; reflexivity|].
  match goal with
  | |- name ?x = _ =>
      rewrite (Extension_name_precedence (sample_disk sample_plain_export)
                 (mkParams None {[ "extensionPath" := JStr "ext/pkg" ]} [] [] None)
                 x "ext/pkg")
  end; vm_compute; reflexivity.
Defined.

(** ** What a constructed extension runs *)

Lemma resolve_clikit_no_executable env params r :
  resolve env params = Ok r ->
  r_isCLIKitExtension r = true ->
  r_executable r = None.
Proof.
  unfold resolve.
  destruct (param params "extensionPath") as [| | | |path| |]; try discriminate.
  destruct (String.eqb path EmptyString); [discriminate|].
  destruct (which_sync env path); [by intros [= <-]|].
  destruct (existsSync env path); [|by intros [= <-]].
  destruct (findPackage env path) as [e|pkg]; cbn [bind]; [discriminate|].
  destruct (pkg_main pkg) as [main|]; [|discriminate].
  destruct (String.eqb main EmptyString); [discriminate|].
  destruct (if pkg_clikit pkg then _ else _) as [e|loaded]; cbn [bind];
    [discriminate|].
  by intros [= <-].
Qed.

Lemma Extension_finish_external env path r super x :
  Extension_finish env path r super = Ok x ->
  r_isCLIKitExtension r = false ->
  read x "isCLIKitExtension" = JBool false.
Proof.
  unfold Extension_finish. intros Hfin Hkit. rewrite Hkit in Hfin.
  cbn [negb bind] in Hfin.
  destruct (Context_option _ version_override) as [e|this1] eqn:Hopt;
    cbn [bind] in Hfin; [discriminate|].
  apply Context_option_frame in Hopt as (_ & _ & Hprops & _).
  unfold write in Hprops. cbn [props] in Hprops.
  assert (Hflag : read this1 "isCLIKitExtension" = JBool false).
  { unfold read. rewrite Hprops. by rewrite lookup_insert_eq. }
  destruct (r_pkg r).
  - injection Hfin as <-. unfold read, write. cbn [props].
    rewrite !lookup_insert_ne by done. exact Hflag.
  - destruct (truthy (read this1 "executable")); [by injection Hfin as <-|].
    destruct (truthy _); [|discriminate].
    injection Hfin as <-. unfold read, write. cbn [props].
    rewrite lookup_insert_ne by done. exact Hflag.
Qed.

Lemma Extension_new_flag env params x :
  Extension_new env params = Ok x ->
  read x "isCLIKitExtension" = JBool false
  \/ (read x "isCLIKitExtension" = JBool true /\ read x "executable" = JNull).
Proof.
  intros Hnew.
  apply Extension_new_inv in Hnew as (path & r & super & _ & _ & Hres & _ & Hfin).
  destruct (r_isCLIKitExtension r) eqn:Hkit.
  - right.
    destruct (finish_clikit env path r super Hkit
                (resolve_clikit_no_executable _ _ _ Hres Hkit))
      as (x' & Hx' & _ & Hflag & Hnull & _).
    rewrite Hx' in Hfin. injection Hfin as <-. by split.
  - left. by eapply Extension_finish_external.
Qed.

(** X8.  No extension that the constructor builds has its output piped:
    a cli-kit extension has no executable, so that [exec] rejects before
    it spawns anything, and every other extension inherits the three
    streams of the process.  [exec] either settles without a child
    process, or it spawns one with [inherit] for each entry of [stdio]
    and pipes nothing to the terminal. *)
Theorem constructed_extension_never_pipes (env : Env) (params : Params)
    (x : Context) :
  Extension_new env params = Ok x ->
  match Extension_exec env x with
  | Pending child piped _ =>
      sp_stdio child = [inherit; inherit; inherit] /\ piped = []
      /\ read x "isCLIKitExtension" = JBool false
  | Settles _ spawned => spawned = []
  end.
Proof.
  intros Hnew. unfold Extension_exec.
  destruct (Extension_new_flag _ _ _ Hnew) as [Hflag | [Hflag Hnull]].
  - destruct (negb (truthy (read x "executable"))); [reflexivity|].
    destruct (terminal_of env _) as [e|t]; [reflexivity|].
    unfold stdio_for. rewrite Hflag. cbn. done.
  - rewrite Hnull. reflexivity.
Qed.

Lemma constructed_extension_never_pipes_witness :
  exists x child on_close,
    Extension_new (sample_disk sample_plain_export) sample_lenient_params = Ok x
    /\ Extension_exec (sample_disk sample_plain_export) x = Pending child [] on_close
    /\ sp_stdio child = [inherit; inherit; inherit].
Proof.
  destruct (Extension_new (sample_disk sample_plain_export) sample_lenient_params)
    as [e|x] eqn:Hnew; [vm_compute in Hnew; discriminate|].
  pose proof (constructed_extension_never_pipes _ _ _ Hnew) as Hexec.
  destruct (Extension_exec (sample_disk sample_plain_export) x)
    as [s spawned|child piped on_close] eqn:Hrun.
  - exfalso. vm_compute in Hnew. injection Hnew as <-.
    vm_compute in Hrun. discriminate.
  - destruct Hexec as (Hstdio & -> & _).
    exists x, child, on_close. done.
Defined.

(** ** A path that is no path *)

Lemma resolve_bad_path env params :
  (forall s, param params "extensionPath" = JStr s -> s = EmptyString) ->
  resolve env params =
  Throw (E INVALID_ARGUMENT "Expected extension path to be a non-empty string").
Proof.
  intros Hbad. unfold resolve.
  destruct (param params "extensionPath") as [| | | |s| |]; try reflexivity.
  by rewrite (Hbad s eq_refl).
Qed.

(** X9.  An extension of a CLI whose path is not a non-empty string does
    not stop the constructor of the CLI and registers nothing: the
    [Extension] constructor refuses the path with [INVALID_ARGUMENT]
    before it looks at the [PATH] or the disk, and the error becomes a
    warning of the CLI.  The path is given as such, or as the [path] of an
    object. *)
Theorem CLI_extension_bad_path_warns (env : Env) (this : CLI)
    (ext : ExtensionRef) (extName path : JsValue) :
  (exists nm, ext = ExtPath path \/ ext = ExtDescriptor nm path) ->
  (forall s, path = JStr s -> s = EmptyString) ->
  exists e,
    e_code e = Some INVALID_ARGUMENT
    /\ CLI_extension env this ext extName =
       mkCLI (root this) (registry this)
             (warnings this ++ [e])%list (warned this ++ [e])%list.
Proof.
  intros [nm Hext] Hbad.
  exists (E INVALID_ARGUMENT "Expected extension path to be a non-empty string").
  split; [reflexivity|].
  assert (Hnew : forall n p,
            Extension_new env
              (mkParams None {[ "extensionPath" := path; "name" := n ]} [] [] p) =
            Throw (E INVALID_ARGUMENT
                     "Expected extension path to be a non-empty string")).
  { intros n p. apply Extension_new_throw, resolve_bad_path.
    unfold param. cbn [p_props]. rewrite lookup_insert_eq. exact Hbad. }
  unfold CLI_extension, Context_extension.
  destruct Hext as [-> | ->]; rewrite Hnew; reflexivity.
Qed.

Lemma CLI_extension_bad_path_warns_witness :
  exists e,
    e_code e = Some INVALID_ARGUMENT
    /\ CLI_extension sample_env sample_strict_cli (ExtPath (JNum 42)) JUndefined =
       mkCLI sample_strict_root (mkRegistry ∅ ∅) [e] [e].
Proof.
  apply (CLI_extension_bad_path_warns sample_env sample_strict_cli
           (ExtPath (JNum 42)) JUndefined (JNum 42)).
  - exists JUndefined. by left.
  - intros s Hs. discriminate Hs.
Defined.

(** ** The [--version] of an extension that is no cli-kit extension *)

Lemma Context_option_version this this' :
  Context_option this version_override = Ok this' ->
  long (lookup this') !! "version" = Some version_override
  /\ short (lookup this') !! "v" = Some version_override.
Proof.
  unfold Context_option.
  destruct (OptionList_add _ _ _) as [e|ol]; cbn [bind]; [discriminate|].
  intros [= <-]. cbn. by rewrite !lookup_insert_eq.
Qed.

Lemma Extension_finish_version env path r super x :
  Extension_finish env path r super = Ok x ->
  r_isCLIKitExtension r = false ->
  long (lookup x) !! "version" = Some version_override
  /\ short (lookup x) !! "v" = Some version_override.
Proof.
  unfold Extension_finish. intros Hfin Hkit. rewrite Hkit in Hfin.
  cbn [negb bind] in Hfin.
  destruct (Context_option _ version_override) as [e|this1] eqn:Hopt;
    cbn [bind] in Hfin; [discriminate|].
  apply Context_option_version in Hopt.
  destruct (r_pkg r).
  - by injection Hfin as <-.
  - destruct (truthy (read this1 "executable")); [by injection Hfin as <-|].
    destruct (truthy _); [|discriminate].
    by injection Hfin as <-.
Qed.

(** X10.  Every extension that is no cli-kit extension answers
    [--version] and [-v] itself: the constructor enters the hidden option
    whose callback throws [NOT_AN_OPTION] into the lookup of the
    extension under both names, so that the [--version] of the CLI above
    it is not the one found there. *)
Theorem external_extension_overrides_version (env : Env) (params : Params)
    (x : Context) :
  Extension_new env params = Ok x ->
  read x "isCLIKitExtension" = JBool false ->
  long (lookup x) !! "version" = Some version_override
  /\ short (lookup x) !! "v" = Some version_override.
Proof.
  intros Hnew Hflag.
  apply Extension_new_inv in Hnew as (path & r & super & _ & _ & Hres & _ & Hfin).
  destruct (r_isCLIKitExtension r) eqn:Hkit.
  - destruct (finish_clikit env path r super Hkit
                (resolve_clikit_no_executable _ _ _ Hres Hkit))
      as (x' & Hx' & _ & Hyes & _).
    rewrite Hx' in Hfin. injection Hfin as <-. congruence.
  - by eapply Extension_finish_version.
Qed.

Lemma external_extension_overrides_version_witness :
  exists x,
    Extension_new (sample_disk sample_plain_export) sample_lenient_params = Ok x
    /\ long (lookup x) !! "version" = Some version_override
    /\ opt_callback version_override = Some FnVersionNotAnOption.
Proof.
  destruct (Extension_new (sample_disk sample_plain_export) sample_lenient_params)
    as [e|x] eqn:Hnew; [vm_compute in Hnew; discriminate|].
  exists x. split; [reflexivity|]. split; [|reflexivity].
  apply (external_extension_overrides_version _ _ _ Hnew).
  vm_compute in Hnew. injection Hnew as <-. reflexivity.
Defined.

(** ** What the constructor copies *)

(** X11.  Which properties the constructor of a context copies from its
    parameters depends on their names only: the exception that the loop
    makes for [stdout] and [stderr] of an existing cli-kit context never
    applies, since the expression matches neither name.  The properties
    of the new context are those whose names the expression does not
    match, whether the parameters are a plain object or a context. *)
Theorem copy_props_ignores_clikit (params : Params) :
  copy_props params =
  filter (fun kv => propIgnoreRegExp_test kv.1 = false) (p_props params).
Proof.
  unfold copy_props. apply map_filter_ext. intros k v _. cbn [fst].
  unfold copied.
  destruct (propIgnoreRegExp_test k) eqn:Htest; cbn [negb orb]; [|done].
  destruct (String.eqb k "stdout") eqn:Hout.
  { apply String.eqb_eq in Hout. subst k. vm_compute in Htest. discriminate. }
  destruct (String.eqb k "stderr") eqn:Herr.
  { apply String.eqb_eq in Herr. subst k. vm_compute in Htest. discriminate. }
  cbn. split; discriminate.
Qed.

(** ** The lookup of the options *)

Lemma register_aliases_lookup (opt : Option) (als : list (string * bool))
    (table : gmap string Option) (k : string) :
  register_aliases opt als table !! k =
  if bool_decide ((k, true) ∈ als) then Some opt else table !! k.
Proof.
  unfold register_aliases. revert table.
  induction als as [|[a vis] rest IH]; intros table; cbn [foldl].
  - reflexivity.
  - rewrite IH.
    destruct (decide ((k, true) ∈ rest)) as [Hin|Hnin].
    + rewrite !bool_decide_eq_true_2; [reflexivity | by right | exact Hin].
    + rewrite (bool_decide_eq_false_2 _ Hnin).
      destruct vis.
      * destruct (decide (k = a)) as [->|Hne].
        -- rewrite lookup_insert_eq, bool_decide_eq_true_2; [reflexivity | by left].
        -- rewrite lookup_insert_ne by done.
           rewrite bool_decide_eq_false_2; [reflexivity|].
           intros [[= ?]|?]%elem_of_cons; done.
      * rewrite bool_decide_eq_false_2; [reflexivity|].
        intros [[= ? ?]|?]%elem_of_cons; done.
Qed.

(** X12.  What [option] enters into the lookup of a context: the option
    is found under its canonical long name and its canonical short name,
    when it has them, and under each of its aliases that is visible;
    hidden aliases are not entered, and every other name leads where it
    led before. *)
Theorem Context_option_lookup (this : Context) (opt : Option) (this' : Context) :
  Context_option this opt = Ok this' ->
  let named (canonical : option string) (als : list (string * bool)) (k : string) :=
    bool_decide (canonical = Some k /\ k <> EmptyString)
    || bool_decide ((k, true) ∈ als) in
  (forall k,
     long (lookup this') !! k =
     if named (opt_long opt) (opt_aliases_long opt) k then Some opt
     else long (lookup this) !! k)
  /\ (forall k,
        short (lookup this') !! k =
        if named (opt_short opt) (opt_aliases_short opt) k then Some opt
        else short (lookup this) !! k).
Proof.
  unfold Context_option.
  destruct (OptionList_add _ _ _) as [e|ol]; cbn [bind]; [discriminate|].
  intros [= <-]. cbn zeta. cbn [lookup long short].
  assert (Hcanon : forall (canonical : option string) (table : gmap string Option) k,
            match canonical with
            | Some l => if String.eqb l EmptyString then table else <[l := opt]> table
            | None => table
            end !! k =
            if bool_decide (canonical = Some k /\ k <> EmptyString) then Some opt
            else table !! k).
  { intros [l|] table k.
    - destruct (String.eqb l EmptyString) eqn:Hl.
      + apply String.eqb_eq in Hl. subst l.
        rewrite bool_decide_eq_false_2; [reflexivity|].
        intros [[= <-] Hne]. done.
      + apply String.eqb_neq in Hl.
        destruct (decide (k = l)) as [->|Hne].
        * rewrite lookup_insert_eq, bool_decide_eq_true_2; done.
        * rewrite lookup_insert_ne by done.
          rewrite bool_decide_eq_false_2; [reflexivity|].
          intros [[= ->] _]. done.
    - rewrite bool_decide_eq_false_2; [reflexivity|]. intros [[=] _]. }
  split; intros k; rewrite register_aliases_lookup, Hcanon;
    destruct (bool_decide (_ ∈ _)); [by rewrite orb_true_r | by rewrite orb_false_r
                                    | by rewrite orb_true_r | by rewrite orb_false_r].
Qed.

Lemma Context_option_lookup_witness :
  let verbose :=
    mkOption "verbose" (Some "verbose") None EmptyString
             [("loud", true); ("chatty", false)] [] false None in
  exists this',
    Context_option sample_root verbose = Ok this'
    /\ long (lookup this') !! "verbose" = Some verbose
    /\ long (lookup this') !! "loud" = Some verbose
    /\ long (lookup this') !! "chatty" = None.
Proof.
  intros verbose.
  destruct (Context_option sample_root verbose) as [e|this'] eqn:Hopt;
    [vm_compute in Hopt; discriminate|].
  destruct (Context_option_lookup _ _ _ Hopt) as [Hlong _].
  exists this'. split; [reflexivity|].
  split; [|split]; rewrite Hlong; reflexivity.
Defined.

(** ** Mixing the options of an existing CLI or command *)

Lemma add_to_group_elem (ol : OptionList) (group : string) (opt o : Option) :
  o ∈ concat (map snd (add_to_group ol group opt)) <->
  o ∈ concat (map snd ol) \/ o = opt.
Proof.
  induction ol as [|[g opts] rest IH]; cbn [add_to_group].
  - cbn. rewrite list_elem_of_singleton.
    split; [by right | intros [H|H]; [by apply elem_of_nil in H | done]].
  - destruct (String.eqb g group); cbn [map snd concat].
    + rewrite !elem_of_app, list_elem_of_singleton. tauto.
    + rewrite !elem_of_app, IH. tauto.
Qed.

Lemma Context_option_options this opt this' :
  Context_option this opt = Ok this' ->
  options this' = add_to_group (options this) (opt_group opt) opt.
Proof.
  unfold Context_option, OptionList_add.
  destruct (existsb _ _); cbn [bind]; [discriminate|].
  by intros [= <-].
Qed.

Lemma mix_add_parent isCLI this this' opt :
  parent this' = parent this -> mix_add isCLI this' opt = mix_add isCLI this opt.
Proof. unfold mix_add. by intros ->. Qed.

(** X13.  The options a context has after the options of an existing CLI
    or command were mixed into it: those it had, and those of the
    existing object that were to be added, which is every option when the
    object is a command and, when it is a CLI, the option [version] and
    the options whose name no ancestor of the context declares. *)
Theorem mix_options_members (isCLI : bool) (entries : OptionList)
    (this this' : Context) :
  mix_options isCLI entries this = Ok this' ->
  forall opt,
    opt ∈ concat (map snd (options this')) <->
    opt ∈ concat (map snd (options this))
    \/ (opt ∈ concat (map snd entries)
        /\ (isCLI = true -> opt_name opt <> "version" ->
            forall p, parent this = Some p -> found_in p (opt_name opt) = false)).
Proof.
  unfold mix_options. generalize (concat (map snd entries)) as opts.
  intros opts. revert this.
  assert (Hadd : forall (c : Context) o,
            mix_add isCLI c o = true <->
            (isCLI = true -> opt_name o <> "version" ->
             forall p, parent c = Some p -> found_in p (opt_name o) = false)).
  { intros c o. unfold mix_add.
    destruct isCLI; cbn [andb]; [|by split].
    destruct (String.eqb (opt_name o) "version") eqn:Hv; cbn [negb].
    - apply String.eqb_eq in Hv. split; [|done]. intros _ _ Hne. done.
    - apply String.eqb_neq in Hv. destruct (parent c) as [p|].
      + rewrite negb_true_iff. split.
        * intros Hf _ _ p' [= <-]. exact Hf.
        * intros H. by apply H.
      + split; [|done]. intros _ _ _ p' [=]. }
  induction opts as [|o rest IH]; intros this; cbn [foldl].
  - intros [= <-] opt. split; [by left|].
    intros [H|[H _]]; [done | by apply elem_of_nil in H].
  - cbn [bind]. destruct (mix_add isCLI this o) eqn:Hmix.
    + destruct (Context_option this o) as [e|this1] eqn:Hopt.
      { rewrite mix_options_throw. discriminate. }
      intros Hrest opt. rewrite (IH this1 Hrest opt).
      pose proof (Context_option_frame _ _ _ Hopt) as (_ & _ & _ & _ & _ & Hparent).
      rewrite (Context_option_options _ _ _ Hopt), add_to_group_elem.
      rewrite Hparent, elem_of_cons.
      pose proof (proj1 (Hadd this o) Hmix) as Hmix'. split.
      * intros [[H| ->]|[H Hok]]; [by left | right|right].
        -- split; [by left | exact Hmix'].
        -- split; [by right | exact Hok].
      * intros [H|[[->|H] Hok]]; [by left; left | by left; right | right; by split].
    + intros Hrest opt. rewrite (IH this Hrest opt), elem_of_cons.
      split.
      * intros [H|[H Hok]]; [by left | right; split; [by right | exact Hok]].
      * intros [H|[[->|H] Hok]]; [by left | | right; by split].
        pose proof (proj2 (Hadd this o) Hok). congruence.
Qed.

Lemma mix_options_members_witness :
  let verbose := mkOption "verbose" (Some "verbose") None EmptyString [] [] false None in
  let force := mkOption "force" (Some "force") None EmptyString [] [] false None in
  let top := mkContext KCLI "program" ∅ [] [] [(EmptyString, [verbose])]
                       (mkLookup ∅ ∅) None in
  let child := mkContext KContext "child" ∅ [] [] [] (mkLookup ∅ ∅) (Some top) in
  exists this',
    mix_options true [(EmptyString, [verbose; force])] child = Ok this'
    /\ force ∈ concat (map snd (options this'))
    /\ verbose ∉ concat (map snd (options this')).
Proof.
  intros verbose force top child.
  destruct (mix_options true [(EmptyString, [verbose; force])] child)
    as [e|this'] eqn:Hmix; [vm_compute in Hmix; discriminate|].
  pose proof (mix_options_members _ _ _ _ Hmix) as Hmem.
  exists this'. split; [reflexivity|]. split.
  - apply Hmem. right. split.
    + cbn. right. left.
    + intros _ _ p [= <-]. reflexivity.
  - intros Hin. apply Hmem in Hin as [Hin|[_ Hok]].
    + cbn in Hin. by apply elem_of_nil in Hin.
    + assert (Hname : opt_name verbose <> "version") by discriminate.
      pose proof (Hok eq_refl Hname top eq_refl) as Hfound.
      vm_compute in Hfound. discriminate.
Defined.

(** ** The options in the help *)

Lemma seen_of_nil : seen_of (mkSeen ∅ ∅) [].
Proof. by split. Qed.

Lemma shadowed_spec earlier o :
  shadowed earlier o = true <->
  (exists l, ho_long o = Some l /\ l ∈ omap ho_long earlier)
  \/ (exists s, ho_short o = Some s /\ s ∈ omap ho_short earlier).
Proof.
  unfold shadowed. rewrite existsb_exists. split.
  - intros (e & Hin%list_elem_of_In & Hor). apply orb_prop in Hor as [H|H].
    + left. destruct (ho_long o) as [l|]; [|done].
      apply bool_decide_eq_true in H. exists l. split; [done|].
      apply list_elem_of_omap. by exists e.
    + right. destruct (ho_short o) as [s|]; [|done].
      apply bool_decide_eq_true in H. exists s. split; [done|].
      apply list_elem_of_omap. by exists e.
  - intros [(l & Hl & Hin)|(s & Hs & Hin)].
    + apply list_elem_of_omap in Hin as (e & He & Hel).
      exists e. split; [by apply list_elem_of_In|].
      rewrite Hl. by rewrite (bool_decide_eq_true_2 _ Hel).
    + apply list_elem_of_omap in Hin as (e & He & Hes).
      exists e. split; [by apply list_elem_of_In|].
      rewrite Hs, (bool_decide_eq_true_2 _ Hes). by rewrite orb_true_r.
Qed.

Lemma seen_step (f : HelpOption -> option string) (names : gset string)
    (earlier : list HelpOption) (o : HelpOption) :
  names = list_to_set (omap f earlier) ->
  snd (match f o with
       | Some l => if bool_decide (l ∈ names) then (true, names)
                   else (false, {[ l ]} ∪ names)
       | None => (false, names)
       end) = list_to_set (omap f (earlier ++ [o])%list).
Proof.
  intros Hnames. rewrite omap_app, list_to_set_app_L, <- Hnames.
  assert (Hone : omap f [o] = match f o with Some l => [l] | None => [] end)
    by (cbn; by destruct (f o)).
  rewrite Hone. clear Hone.
  destruct (f o) as [l|]; rewrite ?list_to_set_cons, list_to_set_nil.
  - case_bool_decide as Hin; cbn [snd].
    + apply set_eq. intros x. rewrite !elem_of_union, elem_of_singleton.
      split; [by left|]. intros [H|[->|H]]; [done | done |].
      by apply elem_of_empty in H.
    + apply set_eq. intros x. rewrite !elem_of_union, elem_of_singleton.
      split; [intros [->|H]; [right; by left | by left]|].
      intros [H|[->|H]]; [by right | by left |]. by apply elem_of_empty in H.
  - apply set_eq. intros x. rewrite elem_of_union.
    split; [by left|]. intros [H|H]; [done|]. by apply elem_of_empty in H.
Qed.

Lemma dedupe_entry_shadowed s earlier o :
  seen_of s earlier ->
  fst (dedupe_entry s o) = shadowed earlier o
  /\ seen_of (snd (dedupe_entry s o)) (earlier ++ [o]).
Proof.
  intros [Hl Hs]. split.
  - apply eq_true_iff_eq. rewrite shadowed_spec. unfold dedupe_entry. cbn [fst].
    rewrite orb_true_iff.
    assert (H1 : (match ho_long o with
                  | Some l => if bool_decide (l ∈ longs s) then (true, longs s)
                              else (false, {[ l ]} ∪ longs s)
                  | None => (false, longs s)
                  end).1 = true <->
                 exists l, ho_long o = Some l /\ l ∈ omap ho_long earlier).
    { destruct (ho_long o) as [l|].
      - rewrite Hl. case_bool_decide as Hin; cbn [fst].
        + apply elem_of_list_to_set in Hin. split; [by exists l | done].
        + split; [done|]. intros (l' & [= <-] & Hin').
          destruct Hin. by apply elem_of_list_to_set.
      - split; [done | by intros (l' & [=] & _)]. }
    assert (H2 : (match ho_short o with
                  | Some x => if bool_decide (x ∈ shorts s) then (true, shorts s)
                              else (false, {[ x ]} ∪ shorts s)
                  | None => (false, shorts s)
                  end).1 = true <->
                 exists x, ho_short o = Some x /\ x ∈ omap ho_short earlier).
    { destruct (ho_short o) as [x|].
      - rewrite Hs. case_bool_decide as Hin; cbn [fst].
        + apply elem_of_list_to_set in Hin. split; [by exists x | done].
        + split; [done|]. intros (x' & [= <-] & Hin').
          destruct Hin. by apply elem_of_list_to_set.
      - split; [done | by intros (x' & [=] & _)]. }
    by rewrite H1, H2.
  - unfold dedupe_entry, seen_of. cbn [snd longs shorts].
    split; [by apply seen_step | by apply seen_step].
Qed.

Lemma visible_app earlier a b :
  visible earlier (a ++ b) = (visible earlier a ++ visible (earlier ++ a) b)%list.
Proof.
  revert earlier. induction a as [|o rest IH]; intros earlier; cbn.
  - by rewrite app_nil_r.
  - rewrite IH, <- !app_assoc. reflexivity.
Qed.

Lemma dedupe_options_visible s n earlier os :
  seen_of s earlier ->
  let p := dedupe_options s n os in
  kept p = visible earlier os
  /\ seen_of (seen p) (earlier ++ os)
  /\ count p = (n - Z.of_nat (length os - length (kept p)))%Z
  /\ sublist (kept p) os.
Proof.
  revert s n earlier. induction os as [|o rest IH]; intros s n earlier Hs; cbn zeta.
  - cbn. rewrite app_nil_r. repeat split; [apply Hs | apply Hs | lia | constructor].
  - cbn [dedupe_options visible].
    destruct (dedupe_entry_shadowed s earlier o Hs) as [Hnuke Hs1].
    rewrite Hnuke.
    destruct (shadowed earlier o).
    + destruct (IH (snd (dedupe_entry s o)) (n - 1)%Z (earlier ++ [o])%list Hs1)
        as (Hk & Hseen & Hcount & Hsub).
      cbn zeta in *. rewrite <- app_assoc in Hseen. cbn in Hseen.
      split; [exact Hk|]. split; [exact Hseen|]. split.
      * rewrite Hcount. cbn [length].
        apply sublist_length in Hsub. lia.
      * by apply sublist_cons.
    + destruct (IH (snd (dedupe_entry s o)) n (earlier ++ [o])%list Hs1)
        as (Hk & Hseen & Hcount & Hsub).
      cbn zeta in *. rewrite <- app_assoc in Hseen. cbn in Hseen.
      cbn [kept count seen]. split; [by rewrite Hk|]. split; [exact Hseen|]. split.
      * rewrite Hcount. cbn [length]. lia.
      * by apply sublist_skip.
Qed.

Lemma dedupe_groups_visible s n earlier groups :
  seen_of s earlier ->
  let p := dedupe_groups s n groups in
  let before := concat (map snd groups) in
  let after := concat (map snd (kept p)) in
  after = visible earlier before
  /\ seen_of (seen p) (earlier ++ before)
  /\ count p = (n - Z.of_nat (length before - length after))%Z
  /\ Forall2 (fun g g' => fst g' = fst g /\ sublist (snd g') (snd g)) groups (kept p).
Proof.
  revert s n earlier. induction groups as [|[g os] rest IH]; intros s n earlier Hs;
    cbn zeta.
  - cbn. rewrite app_nil_r. repeat split; [apply Hs | apply Hs | lia | done].
  - cbn [dedupe_groups kept count seen map snd concat].
    destruct (dedupe_options_visible s n earlier os Hs) as (Hk & Hs1 & Hc & Hsub).
    cbn zeta in Hk, Hs1, Hc, Hsub.
    destruct (IH (seen (dedupe_options s n os)) (count (dedupe_options s n os))
                 (earlier ++ os)%list Hs1) as (Hk' & Hs2 & Hc' & Hall).
    cbn zeta in Hk', Hs2, Hc', Hall.
    split; [by rewrite visible_app, Hk, Hk'|].
    split; [by rewrite app_assoc|].
    split.
    + rewrite !length_app.
      pose proof (sublist_length _ _ Hsub) as Hle.
      assert (Hle' : length (concat (map snd (kept (dedupe_groups
                        (seen (dedupe_options s n os))
                        (count (dedupe_options s n os)) rest))))
                     <= length (concat (map snd rest))).
      { rewrite Hk'. clear. generalize (earlier ++ os)%list as e.
        induction (concat (map snd rest)) as [|o l IHl]; intros e; cbn; [lia|].
        rewrite length_app. specialize (IHl (e ++ [o])%list).
        destruct (shadowed e o); cbn; lia. }
      lia.
    + constructor; [by split | exact Hall].
Qed.

Lemma dedupe_scopes_visible scopes :
  let p := foldr (fun sc acc =>
                    let p := dedupe_groups (seen acc) (sc_count sc) (sc_groups sc) in
                    mkPass (mkHelpScope (sc_title sc) (sc_name sc) (count p) (kept p)
                              :: kept acc)
                           0%Z (seen p))
                 (mkPass [] 0%Z (mkSeen ∅ ∅)) scopes in
  help_order (kept p) = visible [] (help_order scopes)
  /\ seen_of (seen p) (help_order scopes)
  /\ Forall2 (fun sc sc' =>
                sc_title sc' = sc_title sc /\ sc_name sc' = sc_name sc
                /\ Forall2 (fun g g' => fst g' = fst g /\ sublist (snd g') (snd g))
                           (sc_groups sc) (sc_groups sc')
                /\ sc_count sc' =
                   (sc_count sc - Z.of_nat (length (scope_options sc)
                                            - length (scope_options sc')))%Z)
             scopes (kept p).
Proof.
  induction scopes as [|sc rest IH]; cbn zeta.
  - cbn. split; [done|]. split; [apply seen_of_nil | constructor].
  - cbn [foldr]. cbn zeta in IH. destruct IH as (Hk & Hs & Hall).
    match goal with
    | |- context [dedupe_groups (seen ?a) _ _] => set (acc := a) in *
    end.
    destruct (dedupe_groups_visible (seen acc) (sc_count sc) (help_order rest)
                (sc_groups sc) Hs) as (Hk' & Hs' & Hc' & Hall').
    cbn zeta in Hk', Hs', Hc', Hall'. cbn [kept seen].
    unfold help_order in *. cbn [rev map]. rewrite !map_app, !concat_app.
    cbn [map concat]. rewrite !app_nil_r.
    split.
    + rewrite visible_app, Hk. cbn [app]. f_equal. exact Hk'.
    + split; [exact Hs'|]. constructor; [|exact Hall].
      cbn [sc_title sc_name sc_groups sc_count]. by repeat split.
Qed.

(** X14.  Which options the help shows.  Going through the scopes from
    the root to the context itself, and through each scope in the order
    of its groups, the help keeps an option exactly when none of the
    options before it has its long name or its short name; that goes for
    the options before it that are themselves not shown, too.  So the
    scope of an ancestor wins over the scope of a descendant. *)
Theorem generateHelp_shows_unshadowed
    (options_help : Context -> Z * list (string * list HelpOption))
    (this : Context) :
  help_order (help_scopes (generateHelp options_help this)) =
  visible [] (concat (map (fun ctx => concat (map snd (snd (options_help ctx))))
                          (rev (chain this)))).
Proof.
  unfold generateHelp. cbn [help_scopes]. unfold dedupe_scopes.
  rewrite (proj1 (dedupe_scopes_visible _)).
  f_equal. unfold help_order. rewrite <- map_rev, map_map. reflexivity.
Qed.

(** X15.  The help only removes options, and counts what it removes:
    there is a scope for each context of the chain, the context itself
    first, with the title and the name of the context and with the same
    groups in the same order; the options of a group are options of the
    group in their order; and the [count] of a scope is the count of its
    option list less the number of options that were removed from it. *)
Theorem generateHelp_removes_and_counts
    (options_help : Context -> Z * list (string * list HelpOption))
    (this : Context) :
  help_contexts (generateHelp options_help this) = rev (map name (chain this))
  /\ Forall2 (fun ctx sc =>
                sc_title sc = js_String (read ctx "title") ++ " options"
                /\ sc_name sc = name ctx
                /\ Forall2 (fun g g' => fst g' = fst g /\ sublist (snd g') (snd g))
                           (snd (options_help ctx)) (sc_groups sc)
                /\ sc_count sc =
                   (fst (options_help ctx)
                    - Z.of_nat (length (concat (map snd (snd (options_help ctx))))
                                - length (scope_options sc)))%Z)
             (chain this) (help_scopes (generateHelp options_help this)).
Proof.
  split; [reflexivity|].
  unfold generateHelp. cbn [help_scopes]. unfold dedupe_scopes.
  destruct (dedupe_scopes_visible
              (map (fun ctx =>
                      mkHelpScope (js_String (read ctx "title") ++ " options")
                                  (name ctx) (fst (options_help ctx))
                                  (snd (options_help ctx)))
                   (chain this))) as (_ & _ & Hall).
  cbn zeta in Hall. apply Forall2_fmap_l in Hall.
  eapply Forall2_impl; [exact Hall|].
  intros ctx sc (Ht & Hn & Hg & Hc). cbn in Ht, Hn, Hg, Hc. done.
Qed.

Lemma shadowed_long earlier o l :
  ho_long o = Some l -> l ∈ omap ho_long earlier -> shadowed earlier o = true.
Proof. intros Hl Hin. apply shadowed_spec. left. by exists l. Qed.

Lemma shadowed_short earlier o x :
  ho_short o = Some x -> x ∈ omap ho_short earlier -> shadowed earlier o = true.
Proof. intros Hx Hin. apply shadowed_spec. right. by exists x. Qed.

Lemma visible_names (f : HelpOption -> option string) earlier options :
  (forall e o l, f o = Some l -> l ∈ omap f e -> shadowed e o = true) ->
  NoDup (omap f (visible earlier options))
  /\ forall l, l ∈ omap f (visible earlier options) -> l ∉ omap f earlier.
Proof.
  intros Hshadow. revert earlier.
  induction options as [|o rest IH]; intros earlier; cbn [visible].
  - cbn. split; [constructor|]. intros l H. by apply elem_of_nil in H.
  - destruct (IH (earlier ++ [o])%list) as [Hnd Hfresh].
    assert (Hearlier : forall l, l ∈ omap f (visible (earlier ++ [o]) rest) ->
                                 (l ∉ omap f earlier) /\ (f o <> Some l)).
    { intros l Hl. specialize (Hfresh l Hl). rewrite omap_app, elem_of_app in Hfresh.
      split; [tauto|]. intros Ho. apply Hfresh. right. cbn. rewrite Ho. by left. }
    destruct (shadowed earlier o) eqn:Hsh; cbn [app].
    + split; [exact Hnd|]. intros l Hl. by apply Hearlier.
    + assert (Hcons : omap f (o :: visible (earlier ++ [o]) rest) =
                      match f o with
                      | Some l => l :: omap f (visible (earlier ++ [o]) rest)
                      | None => omap f (visible (earlier ++ [o]) rest)
                      end) by reflexivity.
      rewrite Hcons. clear Hcons. destruct (f o) as [l|] eqn:Ho.
      * split.
        -- constructor; [|exact Hnd]. intros Hin. by apply Hearlier in Hin as [_ ?].
        -- intros l' [Heq|Hin]%elem_of_cons; [|by apply Hearlier].
           subst l'. intros Hin.
           rewrite (Hshadow earlier o l Ho Hin) in Hsh. discriminate.
      * split; [exact Hnd|]. intros l Hl. by apply Hearlier.
Qed.

(** X16.  No name comes twice in the help: of the options that the help
    shows, in all the scopes together, no two have the same long name,
    and no two the same short name. *)
Theorem generateHelp_names_once
    (options_help : Context -> Z * list (string * list HelpOption))
    (this : Context) :
  let shown := help_order (help_scopes (generateHelp options_help this)) in
  NoDup (omap ho_long shown) /\ NoDup (omap ho_short shown).
Proof.
  cbn zeta. unfold generateHelp. cbn [help_scopes]. unfold dedupe_scopes.
  rewrite (proj1 (dedupe_scopes_visible _)).
  split.
  - apply (visible_names ho_long). intros e o l. apply shadowed_long.
  - apply (visible_names ho_short). intros e o l. apply shadowed_short.
Qed.

(** ** The terminal of an extension *)







(** ** Errors of [exec] when the help is enabled *)



